(** * Resume analyzer: extraction, scoring, ranking and aggregation

    A shallow embedding of [backend/app.py].  Texts are Python [str] values
    restricted to code points below 256, one [ascii] per code point; the
    character classes of the [re] module ([\d], [\s], [\w], [\b]) and
    [str.lower] are written out for that range.  The integers read from
    a text are [Z], with the error that [int] raises on too many digits as
    [None]; lengths and counts are [nat], and the similarity score
    is a real number: the arithmetic of the scorer is exact here, the
    rounding error of the doubles is not part of the model. *)

From Stdlib Require Import Ascii String.
From Stdlib Require Import List ZArith NArith Bool Arith Lia.
From Stdlib Require Import Permutation Sorted Reals Lra.
Import ListNotations.

Set Implicit Arguments.

(** ** Texts *)

Definition text := list ascii.

Definition lit (x : string) : text := list_ascii_of_string x.

Definition text_eqb (a b : text) : bool :=
  if list_eq_dec ascii_dec a b then true else false.

Definition code (c : ascii) : N := N_of_ascii c.

Definition between (lo hi : N) (c : ascii) : bool :=
  ((lo <=? code c) && (code c <=? hi))%N.

Definition one_of (cs : string) (c : ascii) : bool :=
  existsb (Ascii.eqb c) (lit cs).

(** [str.lower] on one code point: A-Z and the upper-case letters of the
    Latin-1 block (all of 0xC0-0xDE but the multiplication sign). *)
Definition lower_char (c : ascii) : ascii :=
  if between 65 90 c || (between 192 222 c && negb (code c =? 215)%N)
  then ascii_of_N (code c + 32)
  else c.

Definition lower (t : text) : text := map lower_char t.

(** [\d]: the decimal digits. *)
Definition is_digit (c : ascii) : bool := between 48 57 c.

(** [\s] on a [str] pattern. *)
Definition is_space (c : ascii) : bool :=
  between 9 13 c || between 28 32 c || (code c =? 133)%N || (code c =? 160)%N.

Definition is_ascii_alnum (c : ascii) : bool :=
  between 48 57 c || between 65 90 c || between 97 122 c.

(** [\w] on a [str] pattern: alphanumeric code points and the underscore. *)
Definition is_word (c : ascii) : bool :=
  is_ascii_alnum c || (code c =? 95)%N
  || (code c =? 170)%N || (code c =? 178)%N || (code c =? 179)%N
  || (code c =? 181)%N || (code c =? 185)%N || (code c =? 186)%N
  || between 188 190 c
  || (between 192 255 c && negb (code c =? 215)%N && negb (code c =? 247)%N).

(** [p in t] on strings. *)
Fixpoint startswith (p t : text) : bool :=
  match p, t with
  | [], _ => true
  | _ :: _, [] => false
  | a :: p', b :: t' => Ascii.eqb a b && startswith p' t'
  end.

Fixpoint contains (p t : text) : bool :=
  startswith p t ||
  match t with
  | [] => false
  | _ :: t' => contains p t'
  end.

Definition endswith (suffix t : text) : bool :=
  startswith (rev suffix) (rev t).

Definition digit_value (c : ascii) : Z := Z.of_N (code c) - 48.

(** The number that a string of decimal digits writes. *)
Definition digits_value (t : text) : Z :=
  fold_left (fun acc c => 10 * acc + digit_value c)%Z t 0%Z.

(** The largest number of digits that [int] converts
    ([sys.int_max_str_digits], as the interpreter sets it). *)
Definition int_max_str_digits : nat := 4300.

(** [int(digits)] for a string of decimal digits; [None] is the
    [ValueError] raised for a string with more digits than the limit,
    leading zeros counted. *)
Definition int_of_digits (t : text) : option Z :=
  if int_max_str_digits <? length t then None else Some (digits_value t).

(** ** Regular expressions

    The fragment of [re] that the patterns of the program use, matched by
    backtracking the way [re] does: leftmost start, greedy repetition and
    greedy option, each alternative tried with the rest of the pattern as
    its continuation. *)

Inductive regex : Type :=
| Eps
| Lit (c : ascii)
| Class (p : ascii -> bool)
| Cat (r1 r2 : regex)
| Opt (r : regex)
| Rep (p : ascii -> bool) (min : nat)
| Group (i : nat) (r : regex)
| WordB.

(** A position in the subject: the character before it, the rest of the
    subject, and the groups closed so far (latest first). *)
Definition captures := list (nat * text).
Definition cfg : Type := option ascii * text * captures.

Definition is_word_at (c : option ascii) : bool :=
  match c with
  | Some x => is_word x
  | None => false
  end.

Definition consumed (s s' : text) : text := firstn (length s - length s') s.

Section Matcher.

(** [re.IGNORECASE] *)
Variable icase : bool.

Definition chr_eq (c x : ascii) : bool :=
  if icase then Ascii.eqb (lower_char c) (lower_char x) else Ascii.eqb c x.

Section Run.

Variable A : Type.

Fixpoint rep (p : ascii -> bool) (min : nat) (prev : option ascii)
         (s : text) (caps : captures) (k : cfg -> option A) : option A :=
  let stop := match min with
              | O => k (prev, s, caps)
              | S _ => None
              end in
  match s with
  | [] => stop
  | c :: s' =>
      if p c then
        match rep p (pred min) (Some c) s' caps k with
        | Some res => Some res
        | None => stop
        end
      else stop
  end.

Fixpoint run (r : regex) (c : cfg) (k : cfg -> option A) : option A :=
  let '(prev, s, caps) := c in
  match r with
  | Eps => k c
  | Lit ch =>
      match s with
      | x :: s' => if chr_eq ch x then k (Some x, s', caps) else None
      | [] => None
      end
  | Class p =>
      match s with
      | x :: s' => if p x then k (Some x, s', caps) else None
      | [] => None
      end
  | Cat r1 r2 => run r1 c (fun c' => run r2 c' k)
  | Opt r1 =>
      match run r1 c k with
      | Some res => Some res
      | None => k c
      end
  | Rep p min => rep p min prev s caps k
  | Group i r1 =>
      run r1 c (fun c' =>
        let '(prev', s', caps') := c' in
        k (prev', s', (i, consumed s s') :: caps'))
  | WordB =>
      if xorb (is_word_at prev) (is_word_at (hd_error s)) then k c else None
  end.

End Run.

(** A match object: the text of group 0 and the groups. *)
Record match_obj : Type := { whole : text; groups : captures }.

Definition match_here (r : regex) (prev : option ascii) (s : text)
  : option match_obj :=
  run r (prev, s, [])
      (fun c' => let '(_, s', caps') := c' in
                 Some {| whole := consumed s s'; groups := caps' |}).

(** [re.search]: the first position, from the left, with a match. *)
Fixpoint search_from (r : regex) (prev : option ascii) (s : text)
  : option match_obj :=
  match match_here r prev s with
  | Some m => Some m
  | None =>
      match s with
      | [] => None
      | c :: s' => search_from r (Some c) s'
      end
  end.

Definition re_search (r : regex) (t : text) : option match_obj :=
  search_from r None t.

End Matcher.

(** [match.group(i)] for a group that took part in the match. *)
Fixpoint lookup_group (i : nat) (caps : captures) : text :=
  match caps with
  | [] => []
  | (j, w) :: rest => if Nat.eqb i j then w else lookup_group i rest
  end.

Definition group (m : match_obj) (i : nat) : text :=
  match i with
  | O => whole m
  | S _ => lookup_group i (groups m)
  end.

Fixpoint lits (t : text) : regex :=
  match t with
  | [] => Eps
  | c :: t' => Cat (Lit c) (lits t')
  end.

Fixpoint cats (rs : list regex) : regex :=
  match rs with
  | [] => Eps
  | r :: rs' => Cat r (cats rs')
  end.

(** ** Field extraction *)

Definition skills_keywords : list text :=
  map lit
    [ "Python"; "Java"; "JavaScript"; "C++"; "C#"; "Ruby"; "PHP"; "Swift";
      "React"; "Angular"; "Vue"; "Node.js"; "Django"; "Flask"; "Spring";
      "SQL"; "MongoDB"; "PostgreSQL"; "MySQL"; "Redis";
      "AWS"; "Azure"; "GCP"; "Docker"; "Kubernetes";
      "Machine Learning"; "Deep Learning"; "AI"; "Data Analysis";
      "Git"; "Agile"; "Scrum"; "DevOps"; "CI/CD" ]%string.

Definition extract_skills (t : text) : list text :=
  let text_lower := lower t in
  fold_left
    (fun found_skills skill =>
       if contains (lower skill) text_lower
       then found_skills ++ [skill]
       else found_skills)
    skills_keywords [].

(** [(\d+)\+?\s*years?\s*(?:of)?\s*experience] *)
Definition experience_pattern_1 : regex :=
  cats [ Group 1 (Rep is_digit 1); Opt (Lit "+"); Rep is_space 0;
         lits (lit "year"); Opt (Lit "s"); Rep is_space 0;
         Opt (lits (lit "of")); Rep is_space 0; lits (lit "experience") ].

(** [experience\s*:\s*(\d+)\+?\s*years?] *)
Definition experience_pattern_2 : regex :=
  cats [ lits (lit "experience"); Rep is_space 0; Lit ":"; Rep is_space 0;
         Group 1 (Rep is_digit 1); Opt (Lit "+"); Rep is_space 0;
         lits (lit "year"); Opt (Lit "s") ].

Definition experience_patterns : list regex :=
  [ experience_pattern_1; experience_pattern_2 ].

(** [None] is the [ValueError] of [int], which nothing catches. *)
Fixpoint first_captured (patterns : list regex) (t : text) : option Z :=
  match patterns with
  | [] => Some 0%Z
  | pattern :: rest =>
      match re_search true pattern t with
      | Some m => int_of_digits (group m 1)
      | None => first_captured rest t
      end
  end.

Definition extract_experience (t : text) : option Z :=
  first_captured experience_patterns t.

Inductive level : Type := PhD | Master | Bachelor | Unknown.

Definition level_name (l : level) : text :=
  match l with
  | PhD => lit "PhD"
  | Master => lit "Master"
  | Bachelor => lit "Bachelor"
  | Unknown => lit "Unknown"
  end.

(** The dictionary literal, in its insertion order (the order in which
    [items()] yields it). *)
Definition education_keywords : list (text * level) :=
  [ (lit "phd", PhD); (lit "ph.d", PhD); (lit "doctorate", PhD);
    (lit "master", Master); (lit "m.s.", Master); (lit "m.s", Master);
    (lit "mba", Master);
    (lit "bachelor", Bachelor); (lit "b.s.", Bachelor); (lit "b.s", Bachelor);
    (lit "b.tech", Bachelor); (lit "b.e.", Bachelor) ].

Fixpoint first_keyword (table : list (text * level)) (text_lower : text)
  : level :=
  match table with
  | [] => Unknown
  | (keyword, lvl) :: rest =>
      if contains keyword text_lower then lvl
      else first_keyword rest text_lower
  end.

Definition extract_education (t : text) : level :=
  first_keyword education_keywords (lower t).

(** [\b[A-Za-z0-9._%+-]+@[A-Za-z0-9.-]+\.[A-Z|a-z]{2,}\b] *)
Definition email_pattern : regex :=
  cats [ WordB;
         Rep (fun c => is_ascii_alnum c || one_of "._%+-" c) 1;
         Lit "@";
         Rep (fun c => is_ascii_alnum c || one_of ".-" c) 1;
         Lit ".";
         Rep (fun c => between 65 90 c || one_of "|" c || between 97 122 c) 2;
         WordB ].

Definition extract_email (t : text) : option text :=
  match re_search false email_pattern t with
  | Some m => Some (group m 0)
  | None => None
  end.

(** [[\+\(]?[1-9][0-9 .\-\(\)]{8,}[0-9]] *)
Definition phone_pattern : regex :=
  cats [ Opt (Class (one_of "+("));
         Class (between 49 57);
         Rep (fun c => between 48 57 c || one_of " .-()" c) 8;
         Class (between 48 57) ].

Definition extract_phone (t : text) : option text :=
  match re_search false phone_pattern t with
  | Some m => Some (group m 0)
  | None => None
  end.

Record resume_info : Type := {
  info_skills : list text;
  info_experience : Z;
  info_education : level;
  info_email : option text;
  info_phone : option text
}.

(** The entries of the dictionary are computed in their order; [None] is
    the error raised while the experience is read. *)
Definition extract_resume_info (t : text) : option resume_info :=
  let skills := extract_skills t in
  match extract_experience t with
  | Some experience =>
      Some {| info_skills := skills;
              info_experience := experience;
              info_education := extract_education t;
              info_email := extract_email t;
              info_phone := extract_phone t |}
  | None => None
  end.

(** ** Similarity scoring

    [TfidfVectorizer(stop_words='english')] with its defaults: the document
    is lower-cased, its tokens are the matches of [\b\w\w+\b], stop words
    are dropped, the term counts are weighted by the smoothed inverse
    document frequency and each row is scaled to unit Euclidean length.
    The list of English stop words belongs to the library and is a
    parameter. *)

(** [\b\w\w+\b], the default [token_pattern]. *)
Definition token_pattern : regex :=
  cats [ WordB; Class is_word; Rep is_word 1; WordB ].

(** [pattern.findall(t)] for a pattern without groups: the matches from
    left to right, none overlapping another.  [skip] counts the characters
    of the last match that are still to be passed. *)
Fixpoint findall_from (r : regex) (skip : nat) (prev : option ascii)
         (s : text) : list text :=
  match skip with
  | S skip' =>
      match s with
      | [] => []
      | c :: s' => findall_from r skip' (Some c) s'
      end
  | O =>
      match match_here false r prev s with
      | Some m =>
          whole m ::
          match s with
          | [] => []
          | c :: s' => findall_from r (pred (length (whole m))) (Some c) s'
          end
      | None =>
          match s with
          | [] => []
          | c :: s' => findall_from r 0 (Some c) s'
          end
      end
  end.

Definition findall (r : regex) (t : text) : list text :=
  findall_from r 0 None t.

Definition tokenize (t : text) : list text := findall token_pattern t.

Definition dot (x y : list R) : R :=
  fold_right Rplus 0%R (map (fun p => (fst p * snd p)%R) (combine x y)).

(** Rows of norm zero are left as they are. *)
Definition l2_normalize (row : list R) : list R :=
  let norm := sqrt (dot row row) in
  if Req_dec_T norm 0 then row else map (fun x => (x / norm)%R) row.

Definition cosine_similarity (x y : list R) : R :=
  dot (l2_normalize x) (l2_normalize y).

(** Rounding to the nearest integer, halves to the even one. *)
Definition rint (x : R) : Z :=
  let f := Int_part x in
  let d := frac_part x in
  if Rlt_dec d (1 / 2) then f
  else if Rlt_dec (1 / 2) d then (f + 1)%Z
  else if Z.even f then f else (f + 1)%Z.

(** [round(x, 2)] *)
Definition round2 (x : R) : R := (IZR (rint (x * 100)) / 100)%R.

Section Scorer.

Variable stop_words : list text.

Definition analyze (doc : text) : list text :=
  filter (fun w => negb (existsb (text_eqb w) stop_words))
         (tokenize (lower doc)).

Definition vocabulary (docs : list text) : list text :=
  nodup (list_eq_dec ascii_dec) (concat (map analyze docs)).

Definition document_frequency (docs : list text) (w : text) : nat :=
  length (filter (fun d => existsb (text_eqb w) (analyze d)) docs).

Definition idf (docs : list text) (w : text) : R :=
  (ln ((1 + INR (length docs)) / (1 + INR (document_frequency docs w))) + 1)%R.

Definition tfidf_row (docs : list text) (vocab : list text) (d : text)
  : list R :=
  map (fun w =>
         (INR (count_occ (list_eq_dec ascii_dec) (analyze d) w)
          * idf docs w)%R)
      vocab.

(** [None] is the [ValueError] raised on an empty vocabulary. *)
Definition fit_transform (docs : list text) : option (list (list R)) :=
  match vocabulary docs with
  | [] => None
  | vocab => Some (map (fun d => l2_normalize (tfidf_row docs vocab d)) docs)
  end.

Definition calculate_match_score (resume_text job_description : text) : R :=
  match fit_transform [resume_text; job_description] with
  | Some tfidf_matrix =>
      let similarity :=
        cosine_similarity (nth 0 tfidf_matrix []) (nth 1 tfidf_matrix []) in
      round2 (similarity * 100)
  | None => 0%R
  end.

End Scorer.

(** ** The candidate collection *)

Record candidate : Type := {
  cand_id : nat;
  cand_filename : text;
  cand_text : text;
  cand_skills : list text;
  cand_experience : Z;
  cand_education : level;
  cand_email : option text;
  cand_phone : option text
}.

Definition candidates_db := list candidate.

Definition ALLOWED_EXTENSIONS : list text := [ lit "pdf"; lit "doc"; lit "docx" ].

Fixpoint take_while (p : ascii -> bool) (t : text) : text :=
  match t with
  | [] => []
  | c :: t' => if p c then c :: take_while p t' else []
  end.

(** [filename.rsplit('.', 1)[1]] for a name that has a dot. *)
Definition rsplit_ext (filename : text) : text :=
  rev (take_while (fun c => negb (Ascii.eqb c ".")) (rev filename)).

Definition allowed_file (filename : text) : bool :=
  existsb (Ascii.eqb ".") filename
  && existsb (text_eqb (lower (rsplit_ext filename))) ALLOWED_EXTENSIONS.

(** An uploaded file: its name, and what the PDF reader and the Word reader
    make of its bytes ([None] when the reader raises). *)
Record upload_file : Type := {
  file_name : text;
  pdf_pages : option (list text);
  docx_paragraphs : option (list text)
}.

Fixpoint join (sep : text) (parts : list text) : text :=
  match parts with
  | [] => []
  | [p] => p
  | p :: rest => p ++ sep ++ join sep rest
  end.

Definition extract_text_from_pdf (file : upload_file) : text :=
  match pdf_pages file with
  | Some pages => concat pages
  | None => []
  end.

Definition extract_text_from_docx (file : upload_file) : text :=
  match docx_paragraphs file with
  | Some paragraphs => join [ascii_of_N 10] paragraphs
  | None => []
  end.

Record processed_resume : Type := {
  proc_filename : text;
  proc_skills : list text;
  proc_experience : Z;
  proc_education : level
}.

(** [Internal_server_error] is the answer 500 to a request in which an
    error is raised and not caught. *)
Inductive upload_response : Type :=
| No_files_provided
| Processed (count : nat) (resumes : list processed_resume)
| Internal_server_error.

Section Upload.

(** [werkzeug.utils.secure_filename] *)
Variable secure_filename : text -> text.

(** [None]: the extraction raises, before anything is appended. *)
Definition ingest (filename text_ : text)
           (acc : candidates_db * list processed_resume)
  : option (candidates_db * list processed_resume) :=
  let '(db, processed_resumes) := acc in
  match extract_resume_info text_ with
  | Some info =>
      Some
        (db ++ [ {| cand_id := length db + 1;
                    cand_filename := filename;
                    cand_text := text_;
                    cand_skills := info_skills info;
                    cand_experience := info_experience info;
                    cand_education := info_education info;
                    cand_email := info_email info;
                    cand_phone := info_phone info |} ],
         processed_resumes ++ [ {| proc_filename := filename;
                                   proc_skills := info_skills info;
                                   proc_experience := info_experience info;
                                   proc_education := info_education info |} ])
  | None => None
  end.

(** One turn of the loop over the uploaded files; [None] when the turn
    raises.  A file object is true when its name is not empty, and an empty
    name is not allowed. *)
Definition process_file (acc : candidates_db * list processed_resume)
           (file : upload_file)
  : option (candidates_db * list processed_resume) :=
  if allowed_file (file_name file) then
    let filename := secure_filename (file_name file) in
    if endswith (lit ".pdf") filename then
      ingest filename (extract_text_from_pdf file) acc
    else if endswith (lit ".docx") filename then
      ingest filename (extract_text_from_docx file) acc
    else Some acc
  else Some acc.

(** The loop: it stops at the first turn that raises, with what the turns
    before it have appended; the flag says whether it came to its end. *)
Fixpoint process_files (files : list upload_file)
         (acc : candidates_db * list processed_resume)
  : candidates_db * list processed_resume * bool :=
  match files with
  | [] => (acc, true)
  | file :: rest =>
      match process_file acc file with
      | Some acc' => process_files rest acc'
      | None => (acc, false)
      end
  end.

(** [files] is [None] when the request has no ['files'] part.  The records
    appended before an error stay in the collection. *)
Definition upload_resumes (files : option (list upload_file))
           (db : candidates_db) : candidates_db * upload_response :=
  match files with
  | None => (db, No_files_provided)
  | Some fs =>
      let '(db', processed_resumes, finished) := process_files fs (db, []) in
      if finished
      then (db', Processed (length processed_resumes) processed_resumes)
      else (db', Internal_server_error)
  end.

Definition reset_database (db : candidates_db) : candidates_db := [].

(** The requests that write the collection. *)
Inductive request : Type :=
| Upload (files : option (list upload_file))
| Reset.

Definition handle (db : candidates_db) (req : request) : candidates_db :=
  match req with
  | Upload files => fst (upload_resumes files db)
  | Reset => reset_database db
  end.

(** The collection after a sequence of requests, from the empty one. *)
Definition after (reqs : list request) : candidates_db :=
  fold_left handle reqs [].

End Upload.

(** ** Ranking *)

(** [list.sort(key=..., reverse=True)]: a stable sort, larger keys first;
    [lt a b] says that the key of [a] is below the key of [b]. *)
Section Sort.

Variable A : Type.
Variable lt : A -> A -> bool.

Fixpoint insert_desc (x : A) (l : list A) : list A :=
  match l with
  | [] => [x]
  | y :: l' => if lt x y then y :: insert_desc x l' else x :: l
  end.

Definition sort_desc (l : list A) : list A := fold_right insert_desc [] l.

End Sort.

Record score_result : Type := {
  res_id : nat;
  res_filename : text;
  res_skills : list text;
  res_experience : Z;
  res_education : level;
  res_email : option text;
  match_score : R
}.

Definition Rltb (x y : R) : bool := if Rlt_dec x y then true else false.

Definition Reqb (x y : R) : bool := if Req_dec_T x y then true else false.

Section Ranker.

Variable stop_words : list text.

Definition score_candidate (job_description : text) (c : candidate)
  : score_result :=
  {| res_id := cand_id c;
     res_filename := cand_filename c;
     res_skills := cand_skills c;
     res_experience := cand_experience c;
     res_education := cand_education c;
     res_email := cand_email c;
     match_score :=
       calculate_match_score stop_words (cand_text c) job_description |}.

(** [query] is the empty text when the request has none; [None] is the
    answer 400, [No search query provided]. *)
Definition search_candidates (query : text) (job_description : option text)
           (db : candidates_db) : option (list score_result) :=
  let job_description :=
    match job_description with
    | Some j => j
    | None => query
    end in
  match query with
  | [] => None
  | _ :: _ =>
      let results := map (score_candidate job_description) db in
      Some (sort_desc (fun a b => Rltb (match_score a) (match_score b))
                      results)
  end.

End Ranker.

(** ** Aggregation *)

Record experience_ranges : Type := {
  range_0_5 : nat;
  range_5_10 : nat;
  range_10_plus : nat
}.

Definition count_experience (r : experience_ranges) (c : candidate)
  : experience_ranges :=
  let exp := cand_experience c in
  if (exp <=? 5)%Z then
    {| range_0_5 := range_0_5 r + 1;
       range_5_10 := range_5_10 r;
       range_10_plus := range_10_plus r |}
  else if (exp <=? 10)%Z then
    {| range_0_5 := range_0_5 r;
       range_5_10 := range_5_10 r + 1;
       range_10_plus := range_10_plus r |}
  else
    {| range_0_5 := range_0_5 r;
       range_5_10 := range_5_10 r;
       range_10_plus := range_10_plus r + 1 |}.

(** [d[k] = d.get(k, 0) + 1] on a dictionary kept in insertion order. *)
Fixpoint bump (K : Type) (eqb : K -> K -> bool) (k : K) (d : list (K * nat))
  : list (K * nat) :=
  match d with
  | [] => [(k, 1)]
  | (k', n) :: rest =>
      if eqb k k' then (k', n + 1) :: rest else (k', n) :: bump eqb k rest
  end.

Definition level_eqb (a b : level) : bool :=
  match a, b with
  | PhD, PhD | Master, Master | Bachelor, Bachelor | Unknown, Unknown => true
  | _, _ => false
  end.

(** The order of strings, code point by code point. *)
Fixpoint text_ltb (a b : text) : bool :=
  match a, b with
  | _, [] => false
  | [], _ :: _ => true
  | x :: a', y :: b' =>
      if (code x <? code y)%N then true
      else if (code x =? code y)%N then text_ltb a' b'
      else false
  end.

(** A dictionary as [jsonify] writes it: the entries in the order of the
    names of their keys, which is how Flask writes an object unless it is
    told otherwise. *)
Definition sort_keys (K V : Type) (name : K -> text) (d : list (K * V))
  : list (K * V) :=
  sort_desc (fun a b => text_ltb (name (fst b)) (name (fst a))) d.

Record analytics : Type := {
  total_candidates : nat;
  experience_breakdown : experience_ranges;
  education_distribution : list (level * nat);
  top_skills : list (text * nat)
}.

(** [None] is the answer 404, [No resumes uploaded yet].  The ten most
    frequent skills are chosen from the list sorted by count; the answer
    holds them as an object. *)
Definition get_analytics (db : candidates_db) : option analytics :=
  match db with
  | [] => None
  | _ :: _ =>
      let all_skills :=
        fold_left (fun d c => fold_left (fun d' skill => bump text_eqb skill d')
                                        (cand_skills c) d)
                  db [] in
      Some {| total_candidates := length db;
              experience_breakdown :=
                fold_left count_experience db
                          {| range_0_5 := 0; range_5_10 := 0;
                             range_10_plus := 0 |};
              education_distribution :=
                sort_keys level_name
                  (fold_left (fun d c => bump level_eqb (cand_education c) d)
                             db []);
              top_skills :=
                sort_keys (fun skill => skill)
                  (firstn 10 (sort_desc (fun a b => snd a <? snd b)
                                        all_skills)) |}
  end.

(** ** Lookup of one candidate *)

Record candidate_detail : Type := {
  det_id : nat;
  det_filename : text;
  det_skills : list text;
  det_experience : Z;
  det_education : level;
  det_email : option text;
  det_phone : option text
}.

(** The first record with the identifier asked for; [None] is the answer
    404, [Candidate not found]. *)
Definition get_candidate_detail (candidate_id : nat) (db : candidates_db)
  : option candidate_detail :=
  match find (fun c => cand_id c =? candidate_id) db with
  | Some candidate =>
      Some {| det_id := cand_id candidate;
              det_filename := cand_filename candidate;
              det_skills := cand_skills candidate;
              det_experience := cand_experience candidate;
              det_education := cand_education candidate;
              det_email := cand_email candidate;
              det_phone := cand_phone candidate |}
  | None => None
  end.

(** * Vocabulary of the properties *)

(** ** Texts and matches *)

(** [p] occurs in [t] as a substring. *)
Definition occurs (p t : text) : Prop :=
  exists pre post, t = pre ++ p ++ post.

(** [matches icase r c c'] says that [r] can match from the position [c] of
    the subject up to the position [c']: any match, whatever the order in
    which the matcher tries them. *)
Inductive matches (icase : bool) : regex -> cfg -> cfg -> Prop :=
| M_eps c : matches icase Eps c c
| M_lit ch x prev s caps :
    chr_eq icase ch x = true ->
    matches icase (Lit ch) (prev, x :: s, caps) (Some x, s, caps)
| M_class (p : ascii -> bool) x prev s caps :
    p x = true ->
    matches icase (Class p) (prev, x :: s, caps) (Some x, s, caps)
| M_cat r1 r2 c1 c2 c3 :
    matches icase r1 c1 c2 -> matches icase r2 c2 c3 ->
    matches icase (Cat r1 r2) c1 c3
| M_opt_some r c1 c2 : matches icase r c1 c2 -> matches icase (Opt r) c1 c2
| M_opt_none r c : matches icase (Opt r) c c
| M_rep_stop p c : matches icase (Rep p 0) c c
| M_rep_more (p : ascii -> bool) min x prev s caps c' :
    p x = true ->
    matches icase (Rep p (pred min)) (Some x, s, caps) c' ->
    matches icase (Rep p min) (prev, x :: s, caps) c'
| M_group i r prev s caps prev' s' caps' :
    matches icase r (prev, s, caps) (prev', s', caps') ->
    matches icase (Group i r) (prev, s, caps)
            (prev', s', (i, consumed s s') :: caps')
| M_wordb prev s caps :
    xorb (is_word_at prev) (is_word_at (hd_error s)) = true ->
    matches icase WordB (prev, s, caps) (prev, s, caps).

Create HintDb regex.
#[local] Hint Constructors matches : regex.

(** The character before the position that follows [pre]. *)
Definition char_before (prev : option ascii) (pre : text) : option ascii :=
  fold_left (fun _ c => Some c) pre prev.

(** [m] is a match of [r] in [t] that starts right after [pre]. *)
Definition found_at (icase : bool) (r : regex) (prev : option ascii)
           (t pre : text) (m : match_obj) : Prop :=
  exists s0 prev' s' caps',
    t = pre ++ s0
    /\ matches icase r (char_before prev pre, s0, []) (prev', s', caps')
    /\ m = {| whole := consumed s0 s'; groups := caps' |}.


(** No group in the pattern. *)
Fixpoint group_free (r : regex) : bool :=
  match r with
  | Cat r1 r2 => group_free r1 && group_free r2
  | Opt r1 => group_free r1
  | Group _ _ => false
  | _ => true
  end.

(** The least number of characters that a match consumes. *)
Fixpoint min_length (r : regex) : nat :=
  match r with
  | Eps | WordB | Opt _ => 0
  | Lit _ | Class _ => 1
  | Cat r1 r2 => min_length r1 + min_length r2
  | Rep _ min => min
  | Group _ r1 => min_length r1
  end.

(** Every character that the pattern can consume satisfies [p]. *)
Fixpoint consumes_only (icase : bool) (p : ascii -> bool) (r : regex) : Prop :=
  match r with
  | Eps | WordB => True
  | Lit ch => forall x, chr_eq icase ch x = true -> p x = true
  | Class q | Rep q _ => forall x, q x = true -> p x = true
  | Cat r1 r2 => consumes_only icase p r1 /\ consumes_only icase p r2
  | Opt r1 | Group _ r1 => consumes_only icase p r1
  end.

(** A text of decimal digits, at least one. *)
Definition digits (w : text) : Prop := w <> [] /\ forallb is_digit w = true.


(** ** Scores, order, buckets and identifiers *)

Definition sum_squares (v : list R) : R :=
  fold_right Rplus 0%R (map (fun x => (x * x)%R) v).

(** The order of the sorted list: no entry is below a later one. *)
Definition not_below (A : Type) (key : A -> R) (a b : A) : Prop :=
  (key b <= key a)%R.

Definition in_first_bucket (c : candidate) : bool := (cand_experience c <=? 5)%Z.

Definition in_second_bucket (c : candidate) : bool :=
  (5 <? cand_experience c)%Z && (cand_experience c <=? 10)%Z.

Definition in_third_bucket (c : candidate) : bool := (10 <? cand_experience c)%Z.

(** The identifiers of a collection are 1, 2, ... in the order of the
    records. *)
Definition ids_in_order (db : candidates_db) : Prop :=
  map cand_id db = seq 1 (length db).

(** ** Examples *)

Definition sample_resume : text :=
  lit "5 years experience Python Bachelor degree jane@x.com 555-1234".

(** A text that states the experience with 4301 digits. *)
Definition endless_experience : text :=
  repeat "1"%char 4301 ++ lit " years experience".

Definition with_experience (n : nat) (years : Z) : candidate :=
  {| cand_id := n; cand_filename := lit "cv.pdf"; cand_text := [];
     cand_skills := []; cand_experience := years; cand_education := Unknown;
     cand_email := None; cand_phone := None |}.

Definition with_text (n : nat) (t : string) : candidate :=
  {| cand_id := n; cand_filename := lit "cv.pdf"; cand_text := lit t;
     cand_skills := []; cand_experience := 0; cand_education := Unknown;
     cand_email := None; cand_phone := None |}.

(** A function on file names that keeps the letters and digits at the end
    of a name, as [secure_filename] does: it drops the characters outside
    letters, digits, [_], [.] and [-]. *)
Definition keep_safe_characters (filename : text) : text :=
  filter (fun c => is_ascii_alnum c || one_of "_.-" c) filename.

Definition old_word_file : upload_file :=
  {| file_name := lit "resume_2021.DOC";
     pdf_pages := None;
     docx_paragraphs := None |}.

(** ** Uploads *)

(** What the answer of an upload lists of a record. *)
Definition summary (c : candidate) : processed_resume :=
  {| proc_filename := cand_filename c;
     proc_skills := cand_skills c;
     proc_experience := cand_experience c;
     proc_education := cand_education c |}.

(** The fields of a record are those that the extraction finds in its
    text. *)
Definition fields_from_text (c : candidate) : Prop :=
  exists info,
    extract_resume_info (cand_text c) = Some info
    /\ cand_skills c = info_skills info
    /\ cand_experience c = info_experience info
    /\ cand_education c = info_education info
    /\ cand_email c = info_email info
    /\ cand_phone c = info_phone info.

(** The extraction raises no error on what either reader makes of the
    file. *)
Definition extraction_returns (file : upload_file) : Prop :=
  extract_resume_info (extract_text_from_pdf file) <> None
  /\ extract_resume_info (extract_text_from_docx file) <> None.

Definition shouting_pdf_file : upload_file :=
  {| file_name := lit "resume.PDF";
     pdf_pages := Some [lit "10 years of experience in Python"];
     docx_paragraphs := None |}.

(** What the lookup answers for a record. *)
Definition detail_of (c : candidate) : candidate_detail :=
  {| det_id := cand_id c;
     det_filename := cand_filename c;
     det_skills := cand_skills c;
     det_experience := cand_experience c;
     det_education := cand_education c;
     det_email := cand_email c;
     det_phone := cand_phone c |}.

Definition endless_pdf_file : upload_file :=
  {| file_name := lit "long.pdf";
     pdf_pages := Some [endless_experience];
     docx_paragraphs := None |}.

Definition plain_pdf_file : upload_file :=
  {| file_name := lit "resume.pdf";
     pdf_pages := Some [lit "10 years of experience in Python"];
     docx_paragraphs := None |}.

(** ** Shapes of the contact fields *)

Definition local_char (c : ascii) : bool :=
  is_ascii_alnum c || one_of "._%+-" c.

Definition domain_char (c : ascii) : bool :=
  is_ascii_alnum c || one_of ".-" c.

Definition tld_char (c : ascii) : bool :=
  between 65 90 c || one_of "|" c || between 97 122 c.

Definition phone_char (c : ascii) : bool :=
  between 48 57 c || one_of " .-()" c.

(** What the extraction gives when it finds nothing. *)
Definition no_info : resume_info :=
  {| info_skills := [];
     info_experience := 0;
     info_education := Unknown;
     info_email := None;
     info_phone := None |}.

Definition newline : ascii := ascii_of_N 10.

(** A text of line breaks only; the empty text is one. *)
Definition blank (t : text) : Prop := Forall (eq newline) t.

(** The reader fails on the file, or finds nothing but empty pages (empty
    paragraphs). *)
Definition nothing_to_read (parts : option (list text)) : Prop :=
  match parts with
  | None => True
  | Some l => Forall (eq []) l
  end.

Definition first_visible (t : text) : bool :=
  match t with
  | [] => false
  | c :: _ => negb (Ascii.eqb c newline)
  end.

Definition empty_word_file : upload_file :=
  {| file_name := lit "empty.docx";
     pdf_pages := None;
     docx_paragraphs := Some [[]; []; []] |}.

(** ** The factor of a normalization *)

(** What [l2_normalize] multiplies a row by, from the sum of the squares of
    the row. *)
Definition unit_factor (q : R) : R :=
  if Req_dec_T (sqrt q) 0 then 1%R else (/ sqrt q)%R.

(** The sum of [f] over a list. *)
Definition total (A : Type) (f : A -> R) (l : list A) : R :=
  fold_right Rplus 0%R (map f l).

(** The factor by which the cosine of two normalized rows exceeds their dot
    product. *)
Definition cosine_factor (q q' : R) : R :=
  (unit_factor (unit_factor q * unit_factor q * q)
   * unit_factor (unit_factor q' * unit_factor q' * q')
   * (unit_factor q * unit_factor q'))%R.

(** The weight of a term in a document of the pair. *)
Definition weight (stop_words : list text) (docs : list text) (d w : text)
  : R :=
  (INR (count_occ (list_eq_dec ascii_dec) (analyze stop_words d) w)
   * idf stop_words docs w)%R.

(** ** Counting dictionaries *)

(** [d.get(k, 0)] *)
Fixpoint get_count (K : Type) (eqb : K -> K -> bool) (k : K)
         (d : list (K * nat)) : nat :=
  match d with
  | [] => 0
  | (k', n) :: rest => if eqb k k' then n else get_count eqb k rest
  end.

(** The dictionary that counts the keys of a list, one after the other. *)
Definition tally (K : Type) (eqb : K -> K -> bool) (keys : list K)
  : list (K * nat) :=
  fold_left (fun d k => bump eqb k d) keys [].

(** How often a key comes in a list. *)
Definition occurrences (K : Type) (eqb : K -> K -> bool) (k : K)
           (keys : list K) : nat :=
  length (filter (fun x => eqb x k) keys).

Definition counts_sum (K : Type) (d : list (K * nat)) : nat :=
  fold_right Nat.add 0 (map snd d).

(** The skills of all the records, in the order of the collection. *)
Definition all_listed_skills (db : candidates_db) : list text :=
  concat (map cand_skills db).

Definition with_education (n : nat) (lvl : level) (skills : list string)
  : candidate :=
  {| cand_id := n; cand_filename := lit "cv.pdf"; cand_text := [];
     cand_skills := map lit skills; cand_experience := 0;
     cand_education := lvl; cand_email := None; cand_phone := None |}.

(** * Properties *)

(** ** Texts *)

Lemma startswith_spec (p t : text) :
  startswith p t = true <-> exists post, t = p ++ post.
Proof.
  revert t; induction p as [|a p IH]; intros t; simpl.
  - split; [intros _; now exists t | reflexivity].
  - destruct t as [|b t].
    + split; [discriminate | intros [post H]; discriminate].
    + rewrite andb_true_iff, Ascii.eqb_eq, IH. split.
      * intros [-> [post ->]]. now exists post.
      * intros [post H]. injection H as -> ->. split; [reflexivity | now exists post].
Qed.

Lemma contains_spec (p t : text) : contains p t = true <-> occurs p t.
Proof.
  unfold occurs. induction t as [|c t IH].
  - simpl. rewrite orb_false_r, startswith_spec. split.
    + intros [post H]. now exists [], post.
    + intros [pre [post H]]. destruct pre; [now exists post | discriminate].
  - cbn [contains]. rewrite orb_true_iff, startswith_spec, IH. split.
    + intros [[post H] | [pre [post H]]].
      * now exists [], post.
      * exists (c :: pre), post. now rewrite H.
    + intros [pre [post H]]. destruct pre as [|x pre].
      * left. now exists post.
      * right. injection H as _ H. now exists pre, post.
Qed.

Lemma contains_false (p t : text) : contains p t = false <-> ~ occurs p t.
Proof.
  rewrite <- contains_spec. destruct (contains p t); split; congruence.
Qed.

Lemma endswith_spec (suffix t : text) :
  endswith suffix t = true <-> exists pre, t = pre ++ suffix.
Proof.
  unfold endswith. rewrite startswith_spec. split.
  - intros [post H]. exists (rev post).
    rewrite <- (rev_involutive t), H, rev_app_distr. now rewrite rev_involutive.
  - intros [pre ->]. exists (rev pre). apply rev_app_distr.
Qed.

Lemma text_eqb_eq (a b : text) : text_eqb a b = true <-> a = b.
Proof.
  unfold text_eqb. destruct (list_eq_dec ascii_dec a b); split; congruence.
Qed.

Lemma text_eqb_refl (a : text) : text_eqb a a = true.
Proof. now apply text_eqb_eq. Qed.

(** ** Field extraction: skills *)

Lemma collect_filter (A : Type) (f : A -> bool) (l acc : list A) :
  fold_left (fun found x => if f x then found ++ [x] else found) l acc
  = acc ++ filter f l.
Proof.
  revert acc; induction l as [|x l IH]; intros acc; simpl.
  - now rewrite app_nil_r.
  - rewrite IH. destruct (f x); [now rewrite <- app_assoc | reflexivity].
Qed.

Lemma skills_keywords_nodup : NoDup skills_keywords.
Proof.
  replace skills_keywords
    with (nodup (list_eq_dec ascii_dec) skills_keywords) by (vm_compute; reflexivity).
  apply NoDup_nodup.
Qed.

(** C4. The skills found in a text are the entries of the vocabulary whose
    lower-case form is a substring of the lower-case text, wherever it
    occurs (inside a longer word too); they come in the order of the
    vocabulary and none comes twice. *)
Theorem extract_skills_vocabulary_scan (t : text) :
  extract_skills t
  = filter (fun skill => contains (lower skill) (lower t)) skills_keywords
  /\ (forall skill,
         In skill (extract_skills t)
         <-> In skill skills_keywords /\ occurs (lower skill) (lower t))
  /\ NoDup (extract_skills t).
Proof.
  assert (E : extract_skills t
              = filter (fun skill => contains (lower skill) (lower t))
                       skills_keywords).
  { unfold extract_skills. now rewrite collect_filter. }
  split; [exact E | split].
  - intros skill. rewrite E, filter_In, contains_spec. tauto.
  - rewrite E. apply NoDup_filter, skills_keywords_nodup.
Qed.

(** The two examples of the permissive scan: another case, and a hit inside
    a longer word. *)
Example extract_skills_react :
  extract_skills (lit "REACT developer") = [lit "React"]
  /\ extract_skills (lit "subreact") = [lit "React"].
Proof. split; vm_compute; reflexivity. Qed.

(** ** Field extraction: education *)

Lemma first_keyword_found (table : list (text * level)) (tl : text) :
  (exists pre keyword lvl post,
      table = pre ++ (keyword, lvl) :: post
      /\ occurs keyword tl
      /\ (forall k l, In (k, l) pre -> ~ occurs k tl)
      /\ first_keyword table tl = lvl)
  \/ ((forall k l, In (k, l) table -> ~ occurs k tl)
      /\ first_keyword table tl = Unknown).
Proof.
  induction table as [|[k l] table IH]; simpl.
  - right. split; [intros k l [] | reflexivity].
  - destruct (contains k tl) eqn:E.
    + left. exists [], k, l, table. apply contains_spec in E.
      repeat split; [exact E | intros ? ? []].
    + apply contains_false in E.
      destruct IH as [(pre & kw & lvl & post & -> & Hocc & Hpre & Hres) | [Hnone Hres]].
      * left. exists ((k, l) :: pre), kw, lvl, post.
        repeat split; try assumption.
        intros k' l' [H | H]; [injection H as <- <-; exact E | eauto].
      * right. split; [|exact Hres].
        intros k' l' [H | H]; [injection H as <- <-; exact E | eauto].
Qed.

Lemma first_keyword_skip (pre : list (text * level)) (rest : list (text * level))
      (tl : text) :
  (forall k l, In (k, l) pre -> ~ occurs k tl) ->
  first_keyword (pre ++ rest) tl = first_keyword rest tl.
Proof.
  induction pre as [|[k l] pre IH]; intros H; simpl; [reflexivity|].
  assert (E : contains k tl = false) by (apply contains_false, (H k l); now left).
  rewrite E. apply IH. intros k' l' Hin. apply (H k' l'). now right.
Qed.

(** C6. The education level of a text is the level of the first keyword of
    the table, in the order of the table, that is a substring of the
    lower-case text; the position of the keywords in the text plays no part.
    The keywords of PhD come before those of Master, and these before those
    of Bachelor; without any keyword in the text the level is Unknown.  A
    text with both [bachelor] and [phd] is a PhD. *)
Theorem extract_education_table_order (t : text) :
  ((exists pre keyword lvl post,
       education_keywords = pre ++ (keyword, lvl) :: post
       /\ occurs (lower keyword) (lower t)
       /\ (forall k l, In (k, l) pre -> ~ occurs (lower k) (lower t))
       /\ extract_education t = lvl)
   \/ ((forall k l, In (k, l) education_keywords -> ~ occurs (lower k) (lower t))
       /\ extract_education t = Unknown))
  /\ map snd education_keywords
     = repeat PhD 3 ++ repeat Master 4 ++ repeat Bachelor 5
  /\ (occurs (lit "bachelor") (lower t) -> occurs (lit "phd") (lower t) ->
      extract_education t = PhD).
Proof.
  assert (L : forall k l, In (k, l) education_keywords -> lower k = k).
  { intros k l H. unfold education_keywords in H. simpl in H.
    repeat (destruct H as [H | H]; [injection H as <- _; reflexivity|]).
    destruct H. }
  split; [|split].
  - unfold extract_education.
    destruct (first_keyword_found education_keywords (lower t))
      as [(pre & kw & lvl & post & E & Hocc & Hpre & Hres) | [Hnone Hres]].
    + left. exists pre, kw, lvl, post. repeat split; try assumption.
      * rewrite (L kw lvl); [exact Hocc|]. rewrite E. apply in_elt.
      * intros k l Hin. rewrite (L k l); [now apply (Hpre k l)|].
        rewrite E. apply in_or_app. now left.
    + right. split; [|exact Hres].
      intros k l Hin. rewrite (L k l Hin). now apply (Hnone k l).
  - reflexivity.
  - intros _ Hphd. unfold extract_education, education_keywords.
    cbn [first_keyword]. apply contains_spec in Hphd. now rewrite Hphd.
Qed.

Lemma extract_education_table_order_witness :
  extract_education (lit "Bachelor of Arts, later a PhD") = PhD.
Proof.
  apply (extract_education_table_order (lit "Bachelor of Arts, later a PhD")).
  - apply contains_spec. vm_compute. reflexivity.
  - apply contains_spec. vm_compute. reflexivity.
Defined.

(** ** Field extraction: the record of the sample resume *)

(** C1, as the code has it.  The sample resume gives the skill Python, five
    years of experience, the level Bachelor and the address [jane@x.com];
    it gives no phone number, for [555-1234] has eight characters and the
    phone pattern needs ten. *)
Theorem extract_resume_info_sample :
  extract_resume_info sample_resume
  = Some {| info_skills := [lit "Python"];
            info_experience := 5;
            info_education := Bachelor;
            info_email := Some (lit "jane@x.com");
            info_phone := None |}.
Proof. vm_compute. reflexivity. Qed.

(** C1, as it is stated, fails: the phone number is not [555-1234]. *)
Lemma extract_resume_info_sample_phone :
  extract_resume_info sample_resume
  <> Some {| info_skills := [lit "Python"];
             info_experience := 5;
             info_education := Bachelor;
             info_email := Some (lit "jane@x.com");
             info_phone := Some (lit "555-1234") |}.
Proof. vm_compute. discriminate. Qed.

(** ** Regular expressions: the matcher finds the matches

    The matcher succeeds exactly when there is a match, and what it returns
    is one. *)

Section MatcherCorrect.

Variable icase : bool.
Variable A : Type.

Lemma rep_sound (p : ascii -> bool) (k : cfg -> option A) (caps : captures)
      (res : A) (s : text) :
  forall min prev,
    rep p min prev s caps k = Some res ->
    exists c', matches icase (Rep p min) (prev, s, caps) c' /\ k c' = Some res.
Proof.
  induction s as [|x s IH]; intros min prev; cbn [rep].
  - destruct min; [|discriminate]. intros H. eauto with regex.
  - destruct (p x) eqn:Hp.
    + destruct (rep p (pred min) (Some x) s caps k) as [res'|] eqn:E.
      * intros H. injection H as ->.
        destruct (IH _ _ E) as [c' [Hm Hk]]. eauto with regex.
      * destruct min; [|discriminate]. intros H. eauto with regex.
    + destruct min; [|discriminate]. intros H. eauto with regex.
Qed.

Lemma run_sound (r : regex) :
  forall (c : cfg) (k : cfg -> option A) (res : A),
    run icase r c k = Some res ->
    exists c', matches icase r c c' /\ k c' = Some res.
Proof.
  induction r as [|ch|p|r1 IH1 r2 IH2|r IH|p min|i r IH|];
    intros [[prev s] caps] k res; cbn [run].
  - eauto with regex.
  - destruct s as [|x s]; [discriminate|].
    destruct (chr_eq icase ch x) eqn:E; [|discriminate]. eauto with regex.
  - destruct s as [|x s]; [discriminate|].
    destruct (p x) eqn:E; [|discriminate]. eauto with regex.
  - intros H. destruct (IH1 _ _ _ H) as [c2 [H1 H']].
    destruct (IH2 _ _ _ H') as [c3 [H2 Hk]]. eauto with regex.
  - destruct (run icase r (prev, s, caps) k) as [res'|] eqn:E.
    + intros H. injection H as ->.
      destruct (IH _ _ _ E) as [c' [Hm Hk]]. eauto with regex.
    + eauto with regex.
  - apply rep_sound.
  - intros H. destruct (IH _ _ _ H) as [[[prev' s'] caps'] [Hm Hk]].
    eauto with regex.
  - destruct (xorb (is_word_at prev) (is_word_at (hd_error s))) eqn:E;
      [|discriminate].
    eauto with regex.
Qed.

End MatcherCorrect.

Lemma run_complete (icase : bool) (r : regex) (c c' : cfg) :
  matches icase r c c' ->
  forall (A : Type) (k : cfg -> option A) (res : A),
    k c' = Some res -> exists res', run icase r c k = Some res'.
Proof.
  induction 1 as [c|ch x prev s caps E|p x prev s caps E
                  |r1 r2 c1 c2 c3 _ IH1 _ IH2|r c1 c2 _ IH|r c|p c
                  |p min x prev s caps c' E _ IH
                  |i r prev s caps prev' s' caps' _ IH|prev s caps E];
    intros A k res Hk.
  - destruct c as [[prev s] caps]. cbn [run]. eauto.
  - cbn [run]. rewrite E. eauto.
  - cbn [run]. rewrite E. eauto.
  - destruct c1 as [[prev s] caps]. cbn [run].
    destruct (IH2 _ _ _ Hk) as [res2 H2]. exact (IH1 _ _ _ H2).
  - destruct c1 as [[prev s] caps]. cbn [run].
    destruct (IH _ _ _ Hk) as [res' ->]. eauto.
  - destruct c as [[prev s] caps]. cbn [run].
    destruct (run icase r (prev, s, caps) k); eauto.
  - destruct c as [[prev s] caps]. cbn [run].
    destruct s as [|x s]; cbn [rep]; [eauto|].
    destruct (p x); [|eauto].
    destruct (rep p (pred 0) (Some x) s caps k); eauto.
  - cbn [run rep]. rewrite E.
    destruct (IH _ _ _ Hk) as [res' H']. cbn [run] in H'. rewrite H'. eauto.
  - cbn [run].
    apply (IH _ (fun c0 : cfg =>
                   let '(prev0, s0, caps0) := c0 in
                   k (prev0, s0, (i, consumed s s0) :: caps0)) res).
    exact Hk.
  - cbn [run]. rewrite E. eauto.
Qed.

Lemma match_here_sound (icase : bool) (r : regex) (prev : option ascii)
      (s : text) (m : match_obj) :
  match_here icase r prev s = Some m -> found_at icase r prev s [] m.
Proof.
  unfold match_here. intros H.
  destruct (run_sound _ _ _ _ H) as [[[prev' s'] caps'] [Hm Hk]].
  injection Hk as <-. exists s, prev', s', caps'. now repeat split.
Qed.

Lemma match_here_complete (icase : bool) (r : regex) (prev : option ascii)
      (s : text) (m : match_obj) :
  found_at icase r prev s [] m -> exists m', match_here icase r prev s = Some m'.
Proof.
  intros (s0 & prev' & s' & caps' & E & Hm & _). simpl in E. subst s0.
  unfold match_here.
  apply (@run_complete _ _ _ _ Hm _
            (fun c' : cfg =>
               let '(_, s1, caps1) := c' in
               Some {| whole := consumed s s1; groups := caps1 |})
            {| whole := consumed s s'; groups := caps' |}).
  reflexivity.
Qed.

Lemma found_at_cons (icase : bool) (r : regex) (prev : option ascii)
      (c : ascii) (s pre : text) (m : match_obj) :
  found_at icase r prev (c :: s) (c :: pre) m
  <-> found_at icase r (Some c) s pre m.
Proof.
  unfold found_at. split; intros (s0 & prev' & s' & caps' & E & Hm & Hw).
  - injection E as E. exists s0, prev', s', caps'. now repeat split.
  - exists s0, prev', s', caps'. subst s. now repeat split.
Qed.

(** A search that succeeds returns a match at the leftmost position that
    has one. *)
Lemma search_from_sound (icase : bool) (r : regex) (s : text) :
  forall prev m,
    search_from icase r prev s = Some m ->
    exists pre,
      found_at icase r prev s pre m
      /\ forall pre' m',
          found_at icase r prev s pre' m' -> length pre <= length pre'.
Proof.
  induction s as [|c s IH]; intros prev m; cbn [search_from].
  - destruct (match_here icase r prev []) as [m0|] eqn:E; [|discriminate].
    intros H. injection H as ->. exists []. split.
    + now apply match_here_sound.
    + intros. simpl. lia.
  - destruct (match_here icase r prev (c :: s)) as [m0|] eqn:E.
    + intros H. injection H as ->. exists []. split.
      * now apply match_here_sound.
      * intros. simpl. lia.
    + intros H. destruct (IH _ _ H) as [pre [Hf Hleft]].
      exists (c :: pre). split.
      * now apply found_at_cons.
      * intros [|c' pre'] m' Hf'.
        -- destruct (match_here_complete Hf') as [m1 E1]. congruence.
        -- assert (c' = c) as ->.
           { destruct Hf' as (? & ? & ? & ? & E' & _). now injection E'. }
           apply found_at_cons in Hf'. specialize (Hleft _ _ Hf'). simpl. lia.
Qed.


Lemma re_search_some (icase : bool) (r : regex) (t : text) (m : match_obj) :
  re_search icase r t = Some m ->
  exists pre,
    found_at icase r None t pre m
    /\ forall pre' m', found_at icase r None t pre' m' -> length pre <= length pre'.
Proof. apply search_from_sound. Qed.



(** ** Regular expressions: what a match consumes and captures *)

Lemma matches_group_free (icase : bool) (r : regex) (c c' : cfg) :
  matches icase r c c' -> group_free r = true -> snd c' = snd c.
Proof.
  induction 1; cbn [group_free]; intros G; try reflexivity.
  - apply andb_true_iff in G. destruct G as [G1 G2].
    rewrite IHmatches2, IHmatches1; auto.
  - auto.
  - rewrite IHmatches; auto.
  - discriminate.
Qed.

Lemma matches_cat_inv (icase : bool) (r1 r2 : regex) (c c'' : cfg) :
  matches icase (Cat r1 r2) c c'' ->
  exists c', matches icase r1 c c' /\ matches icase r2 c' c''.
Proof. inversion 1; subst; eauto. Qed.

Lemma matches_rep_inv (icase : bool) (p : ascii -> bool) (s : text) :
  forall min prev caps prev' s' caps',
    matches icase (Rep p min) (prev, s, caps) (prev', s', caps') ->
    exists w, s = w ++ s' /\ forallb p w = true /\ min <= length w
              /\ caps' = caps.
Proof.
  induction s as [|x s IH]; intros min prev caps prev' s' caps' H;
    inversion H; subst.
  - exists []. repeat split. simpl. lia.
  - exists []. repeat split. simpl. lia.
  - match goal with
    | Hp : p x = true, Hm : matches _ (Rep _ _) (Some x, s, _) _ |- _ =>
        destruct (IH _ _ _ _ _ _ Hm) as (w & -> & Hw & Hlen & ->);
        exists (x :: w); repeat split; simpl; [now rewrite Hp, Hw | lia]
    end.
Qed.

Lemma consumed_app (w s' : text) : consumed (w ++ s') s' = w.
Proof.
  unfold consumed. rewrite length_app.
  replace (length w + length s' - length s') with (length w) by lia.
  rewrite firstn_app, Nat.sub_diag, firstn_all. simpl. apply app_nil_r.
Qed.

Lemma matches_group_rep (icase : bool) (i : nat) (p : ascii -> bool) (min : nat)
      (prev prev' : option ascii) (s s' : text) (caps caps' : captures) :
  matches icase (Group i (Rep p min)) (prev, s, caps) (prev', s', caps') ->
  exists w, caps' = (i, w) :: caps /\ forallb p w = true /\ min <= length w
            /\ s = w ++ s'.
Proof.
  inversion 1; subst.
  match goal with
  | Hm : matches _ (Rep _ _) _ _ |- _ =>
      destruct (matches_rep_inv Hm) as (w & -> & Hw & Hlen & ->)
  end.
  exists w. rewrite consumed_app. now repeat split.
Qed.

Lemma digits_of_rep (w : text) :
  forallb is_digit w = true -> 1 <= length w -> digits w.
Proof.
  intros H L. split; [|exact H]. intros ->. simpl in L. lia.
Qed.

Lemma experience_pattern_1_group (prev : option ascii) (t pre : text)
      (m : match_obj) :
  found_at true experience_pattern_1 prev t pre m -> digits (group m 1).
Proof.
  intros (s0 & prev' & s' & caps' & _ & Hm & ->).
  unfold experience_pattern_1 in Hm. cbn [cats] in Hm.
  apply matches_cat_inv in Hm. destruct Hm as [[[p1 s1] caps1] [Hg Hrest]].
  apply matches_group_rep in Hg. destruct Hg as (w & -> & Hw & Hlen & _).
  apply matches_group_free in Hrest; [|reflexivity]. simpl in Hrest. subst caps'.
  simpl. now apply digits_of_rep.
Qed.

Lemma experience_pattern_2_group (prev : option ascii) (t pre : text)
      (m : match_obj) :
  found_at true experience_pattern_2 prev t pre m -> digits (group m 1).
Proof.
  intros (s0 & prev' & s' & caps' & _ & Hm & ->).
  unfold experience_pattern_2 in Hm. cbn [cats] in Hm.
  apply matches_cat_inv in Hm. destruct Hm as [[[p1 s1] caps1] [H1 Hm]].
  apply matches_group_free in H1; [|reflexivity]. simpl in H1. subst caps1.
  apply matches_cat_inv in Hm. destruct Hm as [[[p2 s2] caps2] [H2 Hm]].
  apply matches_group_free in H2; [|reflexivity]. simpl in H2. subst caps2.
  apply matches_cat_inv in Hm. destruct Hm as [[[p3 s3] caps3] [H3 Hm]].
  apply matches_group_free in H3; [|reflexivity]. simpl in H3. subst caps3.
  apply matches_cat_inv in Hm. destruct Hm as [[[p4 s4] caps4] [H4 Hm]].
  apply matches_group_free in H4; [|reflexivity]. simpl in H4. subst caps4.
  apply matches_cat_inv in Hm. destruct Hm as [[[p5 s5] caps5] [Hg Hrest]].
  apply matches_group_rep in Hg. destruct Hg as (w & -> & Hw & Hlen & _).
  apply matches_group_free in Hrest; [|reflexivity]. simpl in Hrest. subst caps'.
  simpl. now apply digits_of_rep.
Qed.

Lemma matches_min_length (icase : bool) (r : regex) (c c' : cfg) :
  matches icase r c c' ->
  length (snd (fst c')) + min_length r <= length (snd (fst c)).
Proof.
  induction 1; cbn [min_length fst snd length] in *; lia.
Qed.

(** What a match consumes is a prefix of the subject, made of characters
    that the pattern allows. *)
Lemma matches_consumes (icase : bool) (p : ascii -> bool) (r : regex)
      (c c' : cfg) :
  matches icase r c c' ->
  consumes_only icase p r ->
  exists w, snd (fst c) = w ++ snd (fst c') /\ forallb p w = true.
Proof.
  induction 1 as [c|ch x prev s caps E|q x prev s caps E
                  |r1 r2 c1 c2 c3 _ IH1 _ IH2|r c1 c2 _ IH|r c|q c
                  |q min x prev s caps c' E _ IH
                  |i r prev s caps prev' s' caps' _ IH|prev s caps E];
    cbn [consumes_only fst snd] in *; intros Hp.
  - now exists [].
  - exists [x]. cbn. now rewrite (Hp x E).
  - exists [x]. cbn. now rewrite (Hp x E).
  - destruct Hp as [Hp1 Hp2].
    destruct (IH1 Hp1) as (w1 & E1 & H1). destruct (IH2 Hp2) as (w2 & E2 & H2).
    exists (w1 ++ w2). rewrite E1, E2, <- app_assoc, forallb_app, H1, H2.
    now split.
  - auto.
  - now exists [].
  - now exists [].
  - destruct (IH Hp) as (w & E' & Hw). exists (x :: w).
    cbn. rewrite E', (Hp x E), Hw. now split.
  - auto.
  - now exists [].
Qed.

Lemma found_at_whole (icase : bool) (p : ascii -> bool) (r : regex)
      (prev : option ascii) (t pre : text) (m : match_obj) :
  found_at icase r prev t pre m ->
  consumes_only icase p r ->
  occurs (whole m) t
  /\ forallb p (whole m) = true
  /\ min_length r <= length (whole m).
Proof.
  intros (s0 & prev' & s' & caps' & -> & Hm & ->) Hp.
  destruct (matches_consumes p Hm Hp) as (w & E & Hw).
  apply matches_min_length in Hm.
  cbn [fst snd whole] in *. subst s0. rewrite consumed_app.
  repeat split.
  - now exists pre, s'.
  - exact Hw.
  - rewrite length_app in Hm. lia.
Qed.

(** ** Tokens *)

Lemma findall_from_found (r : regex) (w : text) (s : text) :
  forall skip prev,
    In w (findall_from r skip prev s) ->
    exists pre m, found_at false r prev s pre m /\ w = whole m.
Proof.
  induction s as [|c s IH]; intros skip prev; cbn [findall_from].
  - destruct skip; [|intros []].
    destruct (match_here false r prev []) as [m|] eqn:E; [|intros []].
    intros [<- | []]. exists [], m. split; [now apply match_here_sound | reflexivity].
  - assert (Hnext : forall k,
               In w (findall_from r k (Some c) s) ->
               exists pre m, found_at false r prev (c :: s) pre m /\ w = whole m).
    { intros k H. destruct (IH _ _ H) as (pre & m & Hf & ->).
      exists (c :: pre), m. split; [now apply found_at_cons | reflexivity]. }
    destruct skip; [|apply Hnext].
    destruct (match_here false r prev (c :: s)) as [m|] eqn:E; [|apply Hnext].
    intros [<- | H]; [|exact (Hnext _ H)].
    exists [], m. split; [now apply match_here_sound | reflexivity].
Qed.

(** A token is a run of two or more word characters of the text. *)
Lemma tokenize_tokens (t w : text) :
  In w (tokenize t) ->
  occurs w t /\ forallb is_word w = true /\ 2 <= length w.
Proof.
  intros H. destruct (findall_from_found _ _ _ _ _ H) as (pre & m & Hf & ->).
  apply (found_at_whole is_word Hf). cbn. tauto.
Qed.

Example tokenize_sample :
  tokenize (lower (lit "Senior C# & Node.js developer, a go-getter"))
  = map lit [ "senior"; "node"; "js"; "developer"; "go"; "getter" ]%string.
Proof. vm_compute. reflexivity. Qed.

(** ** Field extraction: experience *)






(** ** Field extraction: the length of a phone number *)

(** Whatever [extract_phone] returns has ten characters or more. *)
Lemma extract_phone_length (t w : text) :
  extract_phone t = Some w -> 10 <= length w.
Proof.
  unfold extract_phone.
  destruct (re_search false phone_pattern t) as [m|] eqn:E; [|discriminate].
  intros H. injection H as <-.
  destruct (re_search_some _ _ _ E)
    as [pre [(s0 & prev' & s' & caps' & _ & Hm & ->) _]].
  apply matches_min_length in Hm. cbn in Hm.
  cbn [group whole]. unfold consumed. rewrite length_firstn. lia.
Qed.

(** ** Aggregation *)

Lemma count_experience_fold (db : candidates_db) :
  forall r,
    fold_left count_experience db r
    = {| range_0_5 := range_0_5 r + length (filter in_first_bucket db);
         range_5_10 := range_5_10 r + length (filter in_second_bucket db);
         range_10_plus := range_10_plus r + length (filter in_third_bucket db) |}.
Proof.
  induction db as [|c db IH]; intros r; cbn [fold_left filter].
  - destruct r. cbn. f_equal; lia.
  - rewrite IH. unfold count_experience, in_first_bucket, in_second_bucket,
      in_third_bucket.
    destruct (Z.leb_spec (cand_experience c) 5);
      destruct (Z.leb_spec (cand_experience c) 10);
      destruct (Z.ltb_spec 5 (cand_experience c));
      destruct (Z.ltb_spec 10 (cand_experience c));
      try lia; cbn; f_equal; lia.
Qed.

Lemma one_bucket (c : candidate) :
  Nat.b2n (in_first_bucket c) + Nat.b2n (in_second_bucket c)
  + Nat.b2n (in_third_bucket c) = 1.
Proof.
  unfold in_first_bucket, in_second_bucket, in_third_bucket.
  destruct (Z.leb_spec (cand_experience c) 5);
    destruct (Z.leb_spec (cand_experience c) 10);
    destruct (Z.ltb_spec 5 (cand_experience c));
    destruct (Z.ltb_spec 10 (cand_experience c));
    try lia; reflexivity.
Qed.

Lemma buckets_cover (db : candidates_db) :
  length (filter in_first_bucket db) + length (filter in_second_bucket db)
  + length (filter in_third_bucket db) = length db.
Proof.
  induction db as [|c db IH]; [reflexivity|].
  pose proof (one_bucket c) as H. cbn [filter length].
  destruct (in_first_bucket c), (in_second_bucket c), (in_third_bucket c);
    cbn in H; try discriminate; cbn [length]; lia.
Qed.

(** C8. On a collection that is not empty the aggregator counts the records
    with at most 5 years, those with 6 to 10 years and those with more than
    10 years; every record is in exactly one of the three, so the three
    counts add up to the number of records. *)
Theorem get_analytics_experience_buckets (db : candidates_db) :
  db <> [] ->
  exists a,
    get_analytics db = Some a
    /\ total_candidates a = length db
    /\ range_0_5 (experience_breakdown a) = length (filter in_first_bucket db)
    /\ range_5_10 (experience_breakdown a) = length (filter in_second_bucket db)
    /\ range_10_plus (experience_breakdown a) = length (filter in_third_bucket db)
    /\ (forall c, In c db ->
                  Nat.b2n (in_first_bucket c) + Nat.b2n (in_second_bucket c)
                  + Nat.b2n (in_third_bucket c) = 1)
    /\ range_0_5 (experience_breakdown a) + range_5_10 (experience_breakdown a)
       + range_10_plus (experience_breakdown a) = total_candidates a.
Proof.
  intros Hne. destruct db as [|c0 db0]; [congruence|].
  unfold get_analytics. eexists. split; [reflexivity|].
  cbn [total_candidates experience_breakdown].
  rewrite count_experience_fold. cbn [range_0_5 range_5_10 range_10_plus].
  repeat split; try reflexivity.
  - intros c _. apply one_bucket.
  - apply (buckets_cover (c0 :: db0)).
Qed.

Lemma get_analytics_experience_buckets_witness :
  option_map experience_breakdown
             (get_analytics [ with_experience 1 5; with_experience 2 10;
                              with_experience 3 11; with_experience 4 0 ])
  = Some {| range_0_5 := 2; range_5_10 := 1; range_10_plus := 1 |}.
Proof.
  destruct (@get_analytics_experience_buckets
              [ with_experience 1 5; with_experience 2 10;
                with_experience 3 11; with_experience 4 0 ])
    as (a & Ha & _); [discriminate|].
  rewrite Ha. vm_compute in Ha. injection Ha as <-. reflexivity.
Defined.

(** ** The candidate collection: identifiers *)

Lemma ids_in_order_append (db : candidates_db) (c : candidate) :
  ids_in_order db -> cand_id c = length db + 1 -> ids_in_order (db ++ [c]).
Proof.
  unfold ids_in_order. intros H Hc.
  rewrite map_app, length_app, H. cbn [map length].
  rewrite Nat.add_1_r, seq_S, Hc. f_equal. f_equal. lia.
Qed.

Section UploadFacts.

Variable secure_filename : text -> text.

Lemma ingest_appends (filename text_ : text)
      (acc : candidates_db * list processed_resume) :
  ingest filename text_ acc = None
  \/ exists c p,
      ingest filename text_ acc = Some (fst acc ++ [c], snd acc ++ [p])
      /\ cand_id c = length (fst acc) + 1.
Proof.
  destruct acc as [db processed]. unfold ingest. cbn [fst snd].
  destruct (extract_resume_info text_) as [info|]; [|now left].
  right. eexists. eexists. split; reflexivity.
Qed.

(** One file leaves the collection as it is, or appends one record, whose
    identifier is the size of the collection plus one, or raises an error
    with nothing appended. *)
Lemma process_file_appends (acc : candidates_db * list processed_resume)
      (file : upload_file) :
  process_file secure_filename acc file = Some acc
  \/ (exists c p,
         process_file secure_filename acc file
         = Some (fst acc ++ [c], snd acc ++ [p])
         /\ cand_id c = length (fst acc) + 1)
  \/ process_file secure_filename acc file = None.
Proof.
  assert (H : forall filename text_,
             ingest filename text_ acc = Some acc
             \/ (exists c p,
                    ingest filename text_ acc
                    = Some (fst acc ++ [c], snd acc ++ [p])
                    /\ cand_id c = length (fst acc) + 1)
             \/ ingest filename text_ acc = None).
  { intros filename text_.
    destruct (ingest_appends filename text_ acc) as [E | E]; auto. }
  unfold process_file.
  destruct (allowed_file (file_name file)); [|now left].
  destruct (endswith (lit ".pdf") (secure_filename (file_name file)));
    [apply H|].
  destruct (endswith (lit ".docx") (secure_filename (file_name file)));
    [apply H | now left].
Qed.

Lemma process_files_ids (files : list upload_file) :
  forall acc,
    ids_in_order (fst acc) ->
    ids_in_order (fst (fst (process_files secure_filename files acc))).
Proof.
  induction files as [|file files IH]; intros acc H; cbn [process_files].
  - exact H.
  - destruct (process_file_appends acc file)
      as [E | [(c & p & E & Hc) | E]]; rewrite E.
    + now apply IH.
    + apply IH. cbn [fst]. now apply ids_in_order_append.
    + exact H.
Qed.

Lemma upload_resumes_collection (files : list upload_file)
      (db : candidates_db) :
  fst (upload_resumes secure_filename (Some files) db)
  = fst (fst (process_files secure_filename files (db, []))).
Proof.
  cbn [upload_resumes].
  destruct (process_files secure_filename files (db, []))
    as [[db' processed] [|]]; reflexivity.
Qed.

Lemma handle_ids (db : candidates_db) (req : request) :
  ids_in_order db -> ids_in_order (handle secure_filename db req).
Proof.
  intros H. destruct req as [[files|]|]; cbn [handle].
  - rewrite upload_resumes_collection.
    exact (@process_files_ids files (db, []) H).
  - exact H.
  - reflexivity.
Qed.

Lemma handle_all_ids (reqs : list request) :
  forall db, ids_in_order db ->
             ids_in_order (fold_left (handle secure_filename) reqs db).
Proof.
  induction reqs as [|req reqs IH]; intros db H; cbn [fold_left].
  - exact H.
  - apply IH, handle_ids, H.
Qed.

(** C9. After any sequence of uploads and resets the identifiers of the
    collection are 1 to N in the order of insertion, hence all different;
    a record that is appended gets the size of the collection plus one (a
    turn of the upload appends one record, or none, or raises an error
    before it appends); a reset empties the collection, and what follows a
    reset goes on as from the empty collection, so that the next identifier
    is 1 again. *)
Theorem identifiers_follow_insertion (reqs : list request) :
  let db := after secure_filename reqs in
  map cand_id db = seq 1 (length db)
  /\ NoDup (map cand_id db)
  /\ (forall processed file,
         process_file secure_filename (db, processed) file
         = Some (db, processed)
         \/ (exists c p,
                process_file secure_filename (db, processed) file
                = Some (db ++ [c], processed ++ [p])
                /\ cand_id c = length db + 1)
         \/ process_file secure_filename (db, processed) file = None)
  /\ handle secure_filename db Reset = []
  /\ (forall reqs',
         after secure_filename (reqs ++ Reset :: reqs')
         = after secure_filename reqs').
Proof.
  intros db.
  assert (H : ids_in_order db) by (apply handle_all_ids; reflexivity).
  repeat split.
  - exact H.
  - rewrite H. apply seq_NoDup.
  - intros processed file. apply (process_file_appends (db, processed) file).
  - intros reqs'. unfold after. now rewrite fold_left_app.
Qed.

End UploadFacts.

(** ** Upload: files with the extension [doc] *)

Lemma take_while_prefix (p : ascii -> bool) (t : text) :
  exists rest, t = take_while p t ++ rest.
Proof.
  induction t as [|c t [rest IH]]; cbn [take_while].
  - now exists [].
  - destruct (p c); [|now exists (c :: t)].
    exists rest. cbn. now rewrite <- IH.
Qed.

Lemma rsplit_ext_suffix (filename : text) :
  exists pre, filename = pre ++ rsplit_ext filename.
Proof.
  unfold rsplit_ext.
  destruct (take_while_prefix (fun c => negb (Ascii.eqb c ".")) (rev filename))
    as [rest H].
  exists (rev rest).
  rewrite <- rev_app_distr, <- H. symmetry. apply rev_involutive.
Qed.

Lemma lower_char_alnum (c : ascii) :
  is_ascii_alnum (lower_char c) = true -> is_ascii_alnum c = true.
Proof.
  destruct c as [[] [] [] [] [] [] [] []]; vm_compute; intros H; exact H.
Qed.

Lemma lower_alnum (t : text) :
  forallb is_ascii_alnum (lower t) = true -> forallb is_ascii_alnum t = true.
Proof.
  induction t as [|c t IH]; [reflexivity|].
  cbn [lower map forallb]. rewrite !andb_true_iff.
  intros [Hc Ht]. split; [now apply lower_char_alnum | now apply IH].
Qed.

Lemma endswith_lower (suffix t : text) :
  endswith suffix t = true -> endswith (lower suffix) (lower t) = true.
Proof.
  rewrite !endswith_spec. intros [pre ->]. exists (lower pre).
  apply map_app.
Qed.

Lemma not_endswith_doc (suffix pre ext : text) :
  lower ext = lit "doc" ->
  endswith (lower suffix) (lower pre ++ lit "doc") = false ->
  endswith suffix (pre ++ ext) = false.
Proof.
  intros Hext Hno.
  destruct (endswith suffix (pre ++ ext)) eqn:E; [|reflexivity].
  apply endswith_lower in E. unfold lower in E at 2.
  rewrite map_app in E. fold (lower pre) in E. fold (lower ext) in E.
  rewrite Hext in E. congruence.
Qed.

(** A file that every turn passes over can be left out of the loop. *)
Lemma process_files_without (secure_filename : text -> text)
      (file : upload_file) (later : list upload_file) :
  (forall acc, process_file secure_filename acc file = Some acc) ->
  forall before acc,
    process_files secure_filename (before ++ file :: later) acc
    = process_files secure_filename (before ++ later) acc.
Proof.
  intros Hskip. induction before as [|f before IH]; intros acc;
    cbn [app process_files].
  - now rewrite Hskip.
  - destruct (process_file secure_filename acc f); [apply IH | reflexivity].
Qed.

Section DocFiles.

Variable secure_filename : text -> text.

(** What is used of [secure_filename]: letters and digits at the end of a
    name stay where they are. *)
Hypothesis secure_filename_keeps_suffix :
  forall pre suffix,
    forallb is_ascii_alnum suffix = true ->
    exists pre', secure_filename (pre ++ suffix) = pre' ++ suffix.

(** C10. A file whose extension is [doc], in any case, passes the filter of
    extensions and is then passed over: it adds no record to the collection
    and no entry to the list of processed resumes, and the upload answers as
    it does without the file, with no error. *)
Theorem doc_file_is_skipped (file : upload_file) :
  existsb (Ascii.eqb ".") (file_name file) = true ->
  lower (rsplit_ext (file_name file)) = lit "doc" ->
  allowed_file (file_name file) = true
  /\ (forall acc, process_file secure_filename acc file = Some acc)
  /\ (forall db before later,
         upload_resumes secure_filename (Some (before ++ file :: later)) db
         = upload_resumes secure_filename (Some (before ++ later)) db)
  /\ (forall db,
         upload_resumes secure_filename (Some [file]) db = (db, Processed 0 [])).
Proof.
  intros Hdot Hext.
  assert (Hallowed : allowed_file (file_name file) = true).
  { unfold allowed_file. rewrite Hdot, Hext. reflexivity. }
  assert (Hskip : forall acc, process_file secure_filename acc file = Some acc).
  { intros acc. unfold process_file. rewrite Hallowed.
    destruct (rsplit_ext_suffix (file_name file)) as [pre Hname].
    assert (Halnum : forallb is_ascii_alnum (rsplit_ext (file_name file)) = true).
    { apply lower_alnum. rewrite Hext. reflexivity. }
    destruct (secure_filename_keeps_suffix pre _ Halnum) as [pre' Hsec].
    rewrite <- Hname in Hsec. rewrite Hsec.
    rewrite (@not_endswith_doc (lit ".pdf") pre' _ Hext),
            (@not_endswith_doc (lit ".docx") pre' _ Hext).
    - reflexivity.
    - unfold endswith. rewrite rev_app_distr. reflexivity.
    - unfold endswith. rewrite rev_app_distr. reflexivity. }
  repeat split.
  - exact Hallowed.
  - exact Hskip.
  - intros db before later. cbn [upload_resumes].
    now rewrite (@process_files_without secure_filename file later Hskip).
  - intros db. cbn [upload_resumes process_files]. now rewrite Hskip.
Qed.

End DocFiles.

Lemma keep_safe_characters_suffix (pre suffix : text) :
  forallb is_ascii_alnum suffix = true ->
  exists pre', keep_safe_characters (pre ++ suffix) = pre' ++ suffix.
Proof.
  intros H. exists (keep_safe_characters pre).
  unfold keep_safe_characters. rewrite filter_app. f_equal.
  induction suffix as [|c suffix IH]; [reflexivity|].
  cbn [forallb] in H. apply andb_true_iff in H. destruct H as [Hc Hs].
  cbn [filter]. rewrite Hc. cbn [orb]. f_equal. exact (IH Hs).
Qed.

Lemma doc_file_is_skipped_witness :
  allowed_file (file_name old_word_file) = true
  /\ upload_resumes keep_safe_characters (Some [old_word_file]) []
     = ([], Processed 0 []).
Proof.
  destruct (@doc_file_is_skipped keep_safe_characters
              keep_safe_characters_suffix old_word_file)
    as (Hallowed & _ & _ & Hone).
  - vm_compute. reflexivity.
  - vm_compute. reflexivity.
  - split; [exact Hallowed | apply Hone].
Defined.

(** ** Ranking: the sort *)

Section SortFacts.

Variable A : Type.
Variable key : A -> R.

Let below (a b : A) : bool := Rltb (key a) (key b).

Lemma insert_desc_permutation (x : A) (l : list A) :
  Permutation (insert_desc below x l) (x :: l).
Proof.
  induction l as [|y l IH]; cbn [insert_desc]; [reflexivity|].
  destruct (below x y); [|reflexivity].
  rewrite IH. apply perm_swap.
Qed.

Lemma sort_desc_permutation (l : list A) : Permutation (sort_desc below l) l.
Proof.
  induction l as [|x l IH]; cbn [sort_desc fold_right]; [reflexivity|].
  fold (sort_desc below l). rewrite insert_desc_permutation. now constructor.
Qed.

Lemma insert_desc_sorted (x : A) (l : list A) :
  StronglySorted (not_below key) l -> StronglySorted (not_below key) (insert_desc below x l).
Proof.
  induction 1 as [|y l Hl IH Hy]; cbn [insert_desc].
  - repeat constructor.
  - unfold below at 1, Rltb. destruct (Rlt_dec (key x) (key y)) as [Hlt | Hge].
    + constructor; [exact IH|].
      eapply Permutation_Forall.
      * symmetry. apply insert_desc_permutation.
      * constructor; [unfold not_below; lra | exact Hy].
    + constructor; [now constructor|].
      constructor; [unfold not_below; lra|].
      eapply Forall_impl; [|exact Hy]. unfold not_below. intros a Ha. lra.
Qed.

Lemma sort_desc_sorted (l : list A) : StronglySorted (not_below key) (sort_desc below l).
Proof.
  induction l as [|x l IH]; cbn [sort_desc fold_right]; [constructor|].
  now apply insert_desc_sorted.
Qed.

(** The entries of one key keep their order. *)
Lemma insert_desc_stable (v : R) (x : A) (l : list A) :
  filter (fun a => Reqb (key a) v) (insert_desc below x l)
  = filter (fun a => Reqb (key a) v) (x :: l).
Proof.
  induction l as [|y l IH]; cbn [insert_desc]; [reflexivity|].
  unfold below at 1, Rltb. destruct (Rlt_dec (key x) (key y)) as [Hlt | Hge];
    [|reflexivity].
  cbn [filter] in *. rewrite IH.
  unfold Reqb. destruct (Req_dec_T (key x) v), (Req_dec_T (key y) v);
    try reflexivity.
  exfalso. lra.
Qed.

Lemma sort_desc_stable (v : R) (l : list A) :
  filter (fun a => Reqb (key a) v) (sort_desc below l)
  = filter (fun a => Reqb (key a) v) l.
Proof.
  induction l as [|x l IH]; cbn [sort_desc fold_right]; [reflexivity|].
  fold (sort_desc below l). rewrite insert_desc_stable.
  cbn [filter]. now rewrite IH.
Qed.

End SortFacts.

(** C7, as the code has it.  For a query that is not empty the search gives
    one result for each record of the collection, the larger scores first;
    the results of one score keep the order of the collection; an empty
    collection gives the empty list.  For an empty query, or none, the
    search answers with an error and no results, whatever the collection
    and the description. *)
Theorem search_candidates_ranking (stop_words : list text) (query : text)
        (job_description : option text) (db : candidates_db) :
  (query = [] ->
   search_candidates stop_words query job_description db = None)
  /\ (query <> [] ->
      let description := match job_description with
                         | Some j => j
                         | None => query
                         end in
      let scored := map (score_candidate stop_words description) db in
      exists results,
        search_candidates stop_words query job_description db = Some results
        /\ length results = length db
        /\ Permutation results scored
        /\ StronglySorted (fun a b => (match_score b <= match_score a)%R)
                          results
        /\ (forall v,
               filter (fun r => Reqb (match_score r) v) results
               = filter (fun r => Reqb (match_score r) v) scored)
        /\ (db = [] -> results = [])).
Proof.
  split.
  - intros ->. reflexivity.
  - intros Hq description scored.
    destruct query as [|q query]; [congruence|].
    unfold search_candidates. fold description. fold scored.
    eexists. split; [reflexivity|].
    repeat split.
    + rewrite (Permutation_length (sort_desc_permutation match_score scored)).
      apply length_map.
    + apply sort_desc_permutation.
    + apply (sort_desc_sorted match_score scored).
    + intros v. apply sort_desc_stable.
    + intros ->. reflexivity.
Qed.

(** C7, as it is stated, fails: without a query the search answers with an
    error, whatever the collection. *)
Lemma search_candidates_empty_query :
  ~ (forall stop_words query job_description db,
        exists results,
          search_candidates stop_words query job_description db = Some results
          /\ length results = length db).
Proof.
  intros H. destruct (H [] [] None [with_text 1 "python"]) as (results & E & _).
  discriminate E.
Qed.

(** ** Similarity scoring *)

Section ScorerFacts.

Open Scope R_scope.

Lemma dot_self (v : list R) : dot v v = sum_squares v.
Proof.
  unfold dot, sum_squares. induction v as [|x v IH]; [reflexivity|].
  cbn [combine map fold_right fst snd]. now rewrite IH.
Qed.

Lemma sum_squares_nonneg (v : list R) : 0 <= sum_squares v.
Proof.
  unfold sum_squares. induction v as [|x v IH]; cbn [map fold_right]; [lra|].
  pose proof (Rle_0_sqr x) as H. unfold Rsqr in H. lra.
Qed.

Lemma sum_squares_pos (v : list R) (x : R) :
  In x v -> x <> 0 -> 0 < sum_squares v.
Proof.
  unfold sum_squares. induction v as [|y v IH]; intros Hin Hx; [destruct Hin|].
  cbn [map fold_right]. destruct Hin as [-> | Hin].
  - pose proof (sum_squares_nonneg v) as Hv. unfold sum_squares in Hv.
    assert (0 < x * x) by (apply Rsqr_pos_lt; exact Hx). lra.
  - pose proof (Rle_0_sqr y) as Hy. unfold Rsqr in Hy.
    specialize (IH Hin Hx). lra.
Qed.

Lemma sum_squares_scale (v : list R) (n : R) :
  n <> 0 ->
  sum_squares (map (fun x => x / n) v) = sum_squares v / (n * n).
Proof.
  intros Hn. unfold sum_squares.
  induction v as [|x v IH]; cbn [map fold_right].
  - field. exact Hn.
  - rewrite IH. field. exact Hn.
Qed.

(** A row that is not zero has unit length once it is normalized. *)
Lemma l2_normalize_unit (v : list R) :
  0 < sum_squares v -> sum_squares (l2_normalize v) = 1.
Proof.
  intros Hpos. unfold l2_normalize. rewrite dot_self.
  assert (Hn : 0 < sqrt (sum_squares v)) by (apply sqrt_lt_R0; exact Hpos).
  destruct (Req_dec_T (sqrt (sum_squares v)) 0) as [E | _]; [lra|].
  rewrite sum_squares_scale by lra.
  rewrite sqrt_sqrt by lra. field. lra.
Qed.

Lemma cosine_similarity_self (v : list R) :
  0 < sum_squares v -> cosine_similarity v v = 1.
Proof.
  intros Hpos. unfold cosine_similarity. rewrite dot_self.
  now apply l2_normalize_unit.
Qed.

Lemma Int_part_IZR (z : Z) : Int_part (IZR z) = z.
Proof.
  unfold Int_part.
  assert (H : (z + 1)%Z = up (IZR z)).
  { apply tech_up; rewrite plus_IZR; lra. }
  rewrite <- H. lia.
Qed.

Lemma rint_IZR (z : Z) : rint (IZR z) = z.
Proof.
  unfold rint, frac_part. rewrite Int_part_IZR.
  destruct (Rlt_dec (IZR z - IZR z) (1 / 2)) as [_ | H]; [reflexivity|].
  exfalso. apply H. lra.
Qed.

Lemma round2_100 : round2 (1 * 100) = 100.
Proof.
  unfold round2. replace (1 * 100 * 100) with (IZR 10000) by lra.
  rewrite rint_IZR. lra.
Qed.

Variable stop_words : list text.

Lemma vocabulary_pair (a b : text) :
  vocabulary stop_words [a; b]
  = nodup (list_eq_dec ascii_dec) (analyze stop_words a ++ analyze stop_words b).
Proof.
  unfold vocabulary. cbn [map concat]. now rewrite app_nil_r.
Qed.

Lemma nodup_nil (A : Type) (dec : forall x y : A, {x = y} + {x <> y})
      (l : list A) :
  nodup dec l = [] <-> l = [].
Proof.
  split; [|intros ->; reflexivity].
  destruct l as [|x l]; [reflexivity|]. intros H.
  assert (Hin : In x (nodup dec (x :: l))) by (apply nodup_In; now left).
  rewrite H in Hin. destruct Hin.
Qed.

(** The vectorizer fails on the documents without a term, and on no
    others. *)
Lemma fit_transform_none (a b : text) :
  fit_transform stop_words [a; b] = None
  <-> analyze stop_words a = [] /\ analyze stop_words b = [].
Proof.
  unfold fit_transform.
  pose proof (nodup_nil (list_eq_dec ascii_dec)
                        (analyze stop_words a ++ analyze stop_words b)) as H.
  rewrite <- vocabulary_pair in H.
  destruct (vocabulary stop_words [a; b]) as [|w vocab].
  - split; [intros _|reflexivity]. apply app_eq_nil. now apply H.
  - split; [discriminate|]. intros [Ha Hb].
    rewrite Ha, Hb in H. cbn in H. destruct H as [_ H].
    specialize (H eq_refl). discriminate.
Qed.

Lemma calculate_match_score_failed (a b : text) :
  fit_transform stop_words [a; b] = None ->
  calculate_match_score stop_words a b = 0.
Proof. intros H. unfold calculate_match_score. now rewrite H. Qed.

(** C3. When the vectorizer fails the score is 0: so it is for two texts
    without a term, such as two texts of stop words only, or empty ones.
    The scorer is total, with a score for every pair of texts. *)
Theorem calculate_match_score_degenerate (a b : text) :
  (fit_transform stop_words [a; b] = None ->
   calculate_match_score stop_words a b = 0)
  /\ (analyze stop_words a = [] -> analyze stop_words b = [] ->
      fit_transform stop_words [a; b] = None
      /\ calculate_match_score stop_words a b = 0)
  /\ ((forall w, In w (tokenize (lower a) ++ tokenize (lower b)) ->
                 In w stop_words) ->
      calculate_match_score stop_words a b = 0)
  /\ calculate_match_score stop_words [] [] = 0.
Proof.
  pose proof calculate_match_score_failed as Hfail.
  assert (Hempty : forall x y,
             analyze stop_words x = [] -> analyze stop_words y = [] ->
             fit_transform stop_words [x; y] = None).
  { intros x y Hx Hy. now apply fit_transform_none. }
  assert (Hstop : forall x : text,
             (forall w, In w (tokenize (lower x)) -> In w stop_words) ->
             analyze stop_words x = []).
  { intros x H. unfold analyze.
    induction (tokenize (lower x)) as [|w ws IH]; [reflexivity|].
    cbn [filter].
    assert (E : existsb (text_eqb w) stop_words = true).
    { apply existsb_exists. exists w. split; [|apply text_eqb_refl].
      apply H. now left. }
    rewrite E. cbn [negb]. apply IH. intros w' Hw'. apply H. now right. }
  split; [|split; [|split]].
  - apply Hfail.
  - intros Ha Hb. split; [now apply Hempty | now apply Hfail, Hempty].
  - intros H. apply Hfail, Hempty; apply Hstop; intros w Hw; apply H, in_or_app;
      [now left | now right].
  - apply Hfail, Hempty; reflexivity.
Qed.

(** A term of the document gives the row of the document an entry that is
    not zero. *)
Lemma tfidf_row_self_pos (t : text) :
  analyze stop_words t <> [] ->
  0 < sum_squares (tfidf_row stop_words [t; t] (vocabulary stop_words [t; t]) t).
Proof.
  intros Hne.
  assert (Hex : exists w, In w (analyze stop_words t)).
  { destruct (analyze stop_words t) as [|w ws]; [congruence|].
    exists w. now left. }
  destruct Hex as [w Hw].
  assert (Hv : In w (vocabulary stop_words [t; t])).
  { rewrite vocabulary_pair. apply nodup_In, in_or_app. now left. }
  assert (Hdf : document_frequency stop_words [t; t] w = 2%nat).
  { unfold document_frequency. cbn [filter].
    assert (E : existsb (text_eqb w) (analyze stop_words t) = true).
    { apply existsb_exists. exists w. split; [exact Hw | apply text_eqb_refl]. }
    rewrite E. reflexivity. }
  assert (Hidf : idf stop_words [t; t] w = 1).
  { unfold idf. rewrite Hdf. cbn [length INR].
    replace ((1 + (1 + 1)) / (1 + (1 + 1))) with 1 by lra.
    rewrite ln_1. lra. }
  apply sum_squares_pos
    with (x := INR (count_occ (list_eq_dec ascii_dec) (analyze stop_words t) w)
               * idf stop_words [t; t] w).
  - unfold tfidf_row.
    apply (in_map (fun w0 =>
                     INR (count_occ (list_eq_dec ascii_dec)
                                    (analyze stop_words t) w0)
                     * idf stop_words [t; t] w0)).
    exact Hv.
  - rewrite Hidf, Rmult_1_r.
    apply not_0_INR.
    apply (count_occ_In (list_eq_dec ascii_dec)) in Hw. lia.
Qed.

(** C2, as the code has it.  Two copies of a text with at least one term,
    that is, a run of two or more word characters that is not a stop word,
    score 100. *)
Theorem calculate_match_score_identical (t : text) :
  analyze stop_words t <> [] ->
  calculate_match_score stop_words t t = 100.
Proof.
  intros Hne. unfold calculate_match_score.
  pose proof (tfidf_row_self_pos t Hne) as Hpos.
  unfold fit_transform.
  destruct (vocabulary stop_words [t; t]) as [|w vocab] eqn:Ev.
  - exfalso. rewrite vocabulary_pair in Ev. apply nodup_nil in Ev.
    apply app_eq_nil in Ev. tauto.
  - cbn [map nth].
    rewrite cosine_similarity_self.
    + apply round2_100.
    + rewrite (l2_normalize_unit _ Hpos). lra.
Qed.

End ScorerFacts.

Lemma calculate_match_score_degenerate_witness :
  calculate_match_score [lit "the"; lit "and"] (lit "The and the") (lit "a !")
  = 0%R.
Proof.
  destruct (calculate_match_score_degenerate [lit "the"; lit "and"]
              (lit "The and the") (lit "a !")) as (_ & H & _).
  apply H; vm_compute; reflexivity.
Defined.

Lemma calculate_match_score_identical_witness :
  calculate_match_score [lit "the"] (lit "Python developer")
                        (lit "Python developer")
  = 100%R.
Proof.
  apply calculate_match_score_identical. vm_compute. discriminate.
Defined.

(** C2, as it is stated, fails: a text that is not empty and has no term
    scores 0 against itself.  [C#] is one, whatever the stop words: its only
    run of word characters has one character. *)
Lemma calculate_match_score_identical_no_term :
  ~ (forall stop_words t,
        t <> [] -> calculate_match_score stop_words t t = 100%R).
Proof.
  intros H. specialize (H [] (lit "C#")).
  assert (E : calculate_match_score [] (lit "C#") (lit "C#") = 0%R).
  { apply calculate_match_score_failed, fit_transform_none.
    split; vm_compute; reflexivity. }
  rewrite E in H. assert (0 = 100)%R by (apply H; discriminate). lra.
Qed.

(** * Further properties *)

Unset Implicit Arguments.

(** ** The filter of extensions *)

Lemma take_while_app (p : ascii -> bool) (a b : text) (x : ascii) :
  forallb p a = true -> p x = false -> take_while p (a ++ x :: b) = a.
Proof.
  intros Ha Hx. induction a as [|c a IH]; cbn [app take_while].
  - now rewrite Hx.
  - cbn [forallb] in Ha. apply andb_true_iff in Ha. destruct Ha as [Hc Ha].
    rewrite Hc. f_equal. now apply IH.
Qed.

Lemma take_while_split (p : ascii -> bool) (t : text) :
  forallb p (take_while p t) = true
  /\ (t = take_while p t
      \/ exists x rest, t = take_while p t ++ x :: rest /\ p x = false).
Proof.
  induction t as [|c t [IHa IHb]]; cbn [take_while].
  - split; [reflexivity | now left].
  - destruct (p c) eqn:Hc.
    + split; [cbn [forallb]; now rewrite Hc, IHa|].
      destruct IHb as [E | (x & rest & E & Hx)].
      * left. now rewrite <- E.
      * right. exists x, rest. split; [cbn [app]; now rewrite <- E | exact Hx].
    + split; [reflexivity|]. right. exists c, t. now split.
Qed.

Lemma no_dot_forallb (ext : text) :
  forallb (fun c => negb (Ascii.eqb c ".")) ext = true <-> ~ In "."%char ext.
Proof.
  rewrite forallb_forall. split.
  - intros H Hin. specialize (H _ Hin). now rewrite Ascii.eqb_refl in H.
  - intros H c Hin. destruct (Ascii.eqb_spec c "."); [subst; contradiction | reflexivity].
Qed.

Lemma has_dot_In (t : text) :
  existsb (Ascii.eqb ".") t = true <-> In "."%char t.
Proof.
  rewrite existsb_exists. split.
  - intros (c & Hin & E). apply Ascii.eqb_eq in E. now subst.
  - intros H. exists "."%char. split; [exact H | apply Ascii.eqb_refl].
Qed.

(** The extension of a name with a dot is what follows its last dot. *)
Lemma rsplit_ext_last_dot (stem ext : text) :
  ~ In "."%char ext -> rsplit_ext (stem ++ "."%char :: ext) = ext.
Proof.
  intros H. unfold rsplit_ext.
  rewrite rev_app_distr. cbn [rev]. rewrite <- app_assoc. cbn [app].
  rewrite take_while_app.
  - apply rev_involutive.
  - apply no_dot_forallb. intros Hin. apply H. now apply in_rev.
  - reflexivity.
Qed.

Lemma split_at_last_dot (filename : text) :
  In "."%char filename ->
  exists stem, filename = stem ++ "."%char :: rsplit_ext filename
               /\ ~ In "."%char (rsplit_ext filename).
Proof.
  intros Hdot. unfold rsplit_ext.
  destruct (take_while_split (fun c => negb (Ascii.eqb c ".")) (rev filename))
    as [Hall [E | (x & rest & E & Hx)]].
  - exfalso. apply in_rev in Hdot. rewrite E in Hdot.
    apply no_dot_forallb in Hall. contradiction.
  - apply negb_false_iff, Ascii.eqb_eq in Hx. subst x.
    exists (rev rest). split.
    + rewrite <- (rev_involutive filename) at 1. rewrite E at 1.
      rewrite rev_app_distr. cbn [rev]. now rewrite <- app_assoc.
    + intros Hin. apply in_rev in Hin. apply no_dot_forallb in Hall.
      contradiction.
Qed.

(** X1. A name is allowed exactly when it has a dot and what follows its
    last dot is, in lower case, one of [pdf], [doc] and [docx]. *)
Theorem allowed_file_last_extension (filename : text) :
  allowed_file filename = true
  <-> exists stem ext,
      filename = stem ++ "."%char :: ext
      /\ ~ In "."%char ext
      /\ In (lower ext) ALLOWED_EXTENSIONS.
Proof.
  unfold allowed_file. rewrite andb_true_iff, has_dot_In, existsb_exists. split.
  - intros [Hdot (e & Hin & He)]. apply text_eqb_eq in He.
    destruct (split_at_last_dot filename Hdot) as (stem & E & Hno).
    exists stem, (rsplit_ext filename). rewrite He. auto.
  - intros (stem & ext & -> & Hno & Hin). split.
    + apply in_or_app. right. now left.
    + exists (lower ext). rewrite rsplit_ext_last_dot by exact Hno.
      split; [exact Hin | apply text_eqb_refl].
Qed.

(** ** Upload: extensions in another case *)

Lemma app_same_length (A : Type) (a c b d : list A) :
  a ++ b = c ++ d -> length b = length d -> a = c /\ b = d.
Proof.
  revert c. induction a as [|x a IH]; intros [|y c] E L; cbn [app] in E.
  - now split.
  - exfalso. subst b. cbn [length] in L. rewrite length_app in L. lia.
  - exfalso. subst d. cbn [length] in L. rewrite length_app in L. lia.
  - injection E as -> E. destruct (IH _ E L) as [-> ->]. now split.
Qed.

Lemma endswith_same_length (dot_ : ascii) (suffix pre ext : text) :
  endswith (dot_ :: suffix) (pre ++ ext) = true ->
  length ext = length suffix -> ext = suffix.
Proof.
  intros H L. apply endswith_spec in H. destruct H as [q H].
  change (dot_ :: suffix) with ([dot_] ++ suffix) in H.
  rewrite app_assoc in H. now destruct (app_same_length _ _ _ _ _ H L).
Qed.

Lemma not_endswith_lower (suffix pre ext e : text) :
  lower ext = e ->
  endswith (lower suffix) (lower pre ++ e) = false ->
  endswith suffix (pre ++ ext) = false.
Proof.
  intros Hext Hno.
  destruct (endswith suffix (pre ++ ext)) eqn:E; [|reflexivity].
  apply endswith_lower in E. unfold lower in E at 2.
  rewrite map_app in E. fold (lower pre) in E. fold (lower ext) in E.
  rewrite Hext in E. congruence.
Qed.

Section ExtensionCase.

Variable secure_filename : text -> text.

Hypothesis secure_filename_keeps_suffix :
  forall pre suffix,
    forallb is_ascii_alnum suffix = true ->
    exists pre', secure_filename (pre ++ suffix) = pre' ++ suffix.

(** X2. The filter of extensions takes no account of case, the choice of
    the reader does: an allowed file whose extension is not written [pdf]
    or [docx] in lower case ([resume.PDF], [cv.Docx]) is passed over, with
    no record, no entry in the answer and no error. *)
Theorem other_case_extension_is_skipped (file : upload_file) :
  allowed_file (file_name file) = true ->
  rsplit_ext (file_name file) <> lit "pdf" ->
  rsplit_ext (file_name file) <> lit "docx" ->
  (forall acc, process_file secure_filename acc file = Some acc)
  /\ (forall db,
         upload_resumes secure_filename (Some [file]) db = (db, Processed 0 [])).
Proof.
  intros Hallowed Hpdf Hdocx.
  assert (Hskip : forall acc, process_file secure_filename acc file = Some acc).
  { intros acc. unfold process_file. rewrite Hallowed.
    pose proof Hallowed as Ha. unfold allowed_file in Ha.
    apply andb_true_iff in Ha. destruct Ha as [_ Ha].
    apply existsb_exists in Ha. destruct Ha as (e & Hin & He).
    apply text_eqb_eq in He.
    destruct (rsplit_ext_suffix (file_name file)) as [pre Hname].
    set (ext := rsplit_ext (file_name file)) in *.
    assert (Halnum : forallb is_ascii_alnum ext = true).
    { apply lower_alnum. rewrite He.
      destruct Hin as [<- | [<- | [<- | []]]]; reflexivity. }
    destruct (secure_filename_keeps_suffix pre _ Halnum) as [pre' Hsec].
    rewrite <- Hname in Hsec. rewrite Hsec.
    assert (Hlen : length ext = length e)
      by (rewrite <- He; symmetry; apply length_map).
    assert (E1 : endswith (lit ".pdf") (pre' ++ ext) = false).
    { destruct (endswith (lit ".pdf") (pre' ++ ext)) eqn:E; [|reflexivity].
      destruct Hin as [<- | [<- | [<- | []]]].
      - exfalso. apply Hpdf. exact (endswith_same_length _ _ _ _ E Hlen).
      - rewrite (@not_endswith_lower (lit ".pdf") pre' ext (lit "doc") He) in E;
          [discriminate|].
        unfold endswith. rewrite rev_app_distr. reflexivity.
      - rewrite (@not_endswith_lower (lit ".pdf") pre' ext (lit "docx") He) in E;
          [discriminate|].
        unfold endswith. rewrite rev_app_distr. reflexivity. }
    assert (E2 : endswith (lit ".docx") (pre' ++ ext) = false).
    { destruct (endswith (lit ".docx") (pre' ++ ext)) eqn:E; [|reflexivity].
      destruct Hin as [<- | [<- | [<- | []]]].
      - rewrite (@not_endswith_lower (lit ".docx") pre' ext (lit "pdf") He) in E;
          [discriminate|].
        unfold endswith. rewrite rev_app_distr. reflexivity.
      - rewrite (@not_endswith_lower (lit ".docx") pre' ext (lit "doc") He) in E;
          [discriminate|].
        unfold endswith. rewrite rev_app_distr. reflexivity.
      - exfalso. apply Hdocx. exact (endswith_same_length _ _ _ _ E Hlen). }
    now rewrite E1, E2. }
  split; [exact Hskip|].
  intros db. cbn [upload_resumes process_files]. now rewrite Hskip.
Qed.

End ExtensionCase.

Lemma other_case_extension_is_skipped_witness :
  upload_resumes keep_safe_characters (Some [shouting_pdf_file]) []
  = ([], Processed 0 []).
Proof.
  apply (@other_case_extension_is_skipped keep_safe_characters
           keep_safe_characters_suffix shouting_pdf_file).
  - vm_compute. reflexivity.
  - vm_compute. discriminate.
  - vm_compute. discriminate.
Defined.

(** ** Upload: what one request adds *)

Section UploadStructure.

Variable secure_filename : text -> text.

Lemma ingest_record (filename text_ : text) (db : candidates_db)
      (processed : list processed_resume) :
  (extract_resume_info text_ = None
   /\ ingest filename text_ (db, processed) = None)
  \/ exists c,
      ingest filename text_ (db, processed)
      = Some (db ++ [c], processed ++ [summary c])
      /\ cand_id c = length db + 1
      /\ cand_text c = text_
      /\ fields_from_text c.
Proof.
  unfold ingest.
  destruct (extract_resume_info text_) as [info|] eqn:E; [right | now left].
  exists {| cand_id := length db + 1;
            cand_filename := filename;
            cand_text := text_;
            cand_skills := info_skills info;
            cand_experience := info_experience info;
            cand_education := info_education info;
            cand_email := info_email info;
            cand_phone := info_phone info |}.
  unfold summary, fields_from_text.
  cbn [cand_id cand_filename cand_text cand_skills cand_experience
       cand_education cand_email cand_phone].
  repeat split. exists info. now repeat split.
Qed.

Lemma process_file_record (db : candidates_db)
      (processed : list processed_resume) (file : upload_file) :
  (process_file secure_filename (db, processed) file = None
   /\ ~ extraction_returns file)
  \/ exists new,
      process_file secure_filename (db, processed) file
      = Some (db ++ new, processed ++ map summary new)
      /\ length new <= 1
      /\ map cand_id new = seq (length db + 1) (length new)
      /\ Forall fields_from_text new.
Proof.
  assert (Hnone : exists new,
             Some (db, processed)
             = Some (db ++ new, processed ++ map summary new)
             /\ length new <= 1
             /\ map cand_id new = seq (length db + 1) (length new)
             /\ Forall fields_from_text new).
  { exists []. cbn. rewrite !app_nil_r. repeat split; [lia | constructor]. }
  assert (Hone : forall filename text_,
             (ingest filename text_ (db, processed) = None
              /\ extract_resume_info text_ = None)
             \/ exists new,
                 ingest filename text_ (db, processed)
                 = Some (db ++ new, processed ++ map summary new)
                 /\ length new <= 1
                 /\ map cand_id new = seq (length db + 1) (length new)
                 /\ Forall fields_from_text new).
  { intros filename text_.
    destruct (ingest_record filename text_ db processed)
      as [[E1 E2] | (c & E & Hid & _ & Hf)]; [now left | right].
    exists [c]. cbn [map length seq]. rewrite E, Hid.
    repeat split; [lia | now constructor]. }
  unfold process_file, extraction_returns.
  destruct (allowed_file (file_name file)); [|now right].
  destruct (endswith (lit ".pdf") (secure_filename (file_name file))).
  { destruct (Hone (secure_filename (file_name file))
                   (extract_text_from_pdf file)) as [[E1 E2] | H];
      [left; split; [exact E1 | tauto] | now right]. }
  destruct (endswith (lit ".docx") (secure_filename (file_name file))).
  { destruct (Hone (secure_filename (file_name file))
                   (extract_text_from_docx file)) as [[E1 E2] | H];
      [left; split; [exact E1 | tauto] | now right]. }
  now right.
Qed.

Lemma process_files_records (files : list upload_file) :
  forall db processed,
  exists new finished,
    process_files secure_filename files (db, processed)
    = (db ++ new, processed ++ map summary new, finished)
    /\ length new <= length files
    /\ map cand_id new = seq (length db + 1) (length new)
    /\ Forall fields_from_text new
    /\ (Forall extraction_returns files -> finished = true).
Proof.
  induction files as [|file files IH]; intros db processed;
    cbn [process_files].
  - exists [], true. cbn. rewrite !app_nil_r.
    repeat split; [lia | constructor].
  - destruct (process_file_record db processed file)
      as [[E1 Hraise] | (new1 & E1 & L1 & I1 & F1)]; rewrite E1.
    + exists [], false. cbn. rewrite !app_nil_r.
      repeat split; [lia | constructor |].
      intros Hall. inversion Hall; subst. contradiction.
    + destruct (IH (db ++ new1) (processed ++ map summary new1))
        as (new2 & finished & E2 & L2 & I2 & F2 & Hfin).
      exists (new1 ++ new2), finished. repeat split.
      * etransitivity; [exact E2|].
        now rewrite <- !app_assoc, map_app.
      * rewrite length_app. cbn [length]. lia.
      * rewrite map_app, length_app, seq_app, I1, I2, length_app.
        f_equal. f_equal. lia.
      * apply Forall_app. now split.
      * intros Hall. inversion Hall; subst. now apply Hfin.
Qed.


Lemma handle_fields (db : candidates_db) (req : request) :
  Forall fields_from_text db ->
  Forall fields_from_text (handle secure_filename db req).
Proof.
  intros H. destruct req as [[files|]|]; cbn [handle].
  - rewrite upload_resumes_collection.
    destruct (process_files_records files db [])
      as (new & finished & -> & _ & _ & F & _).
    cbn [fst]. apply Forall_app. now split.
  - exact H.
  - constructor.
Qed.

(** X4. In the collection, after any sequence of uploads and resets, the
    skills, the experience, the education, the address and the phone of
    every record are those that the extraction finds in the text stored
    with it. *)
Theorem stored_fields_match_text (reqs : list request) :
  Forall fields_from_text (after secure_filename reqs).
Proof.
  unfold after.
  assert (H : forall db, Forall fields_from_text db ->
                         Forall fields_from_text
                                (fold_left (handle secure_filename) reqs db)).
  { induction reqs as [|req reqs IH]; intros db Hdb; cbn [fold_left].
    - exact Hdb.
    - apply IH, handle_fields, Hdb. }
  apply H. constructor.
Qed.

(** ** Lookup of one candidate *)

Lemma find_by_id (db : candidates_db) :
  forall first,
    map cand_id db = seq first (length db) ->
    forall k,
      find (fun c => cand_id c =? k) db
      = if (first <=? k) && (k <? first + length db)
        then nth_error db (k - first)
        else None.
Proof.
  induction db as [|c db IH]; intros first H k; cbn [find length].
  - rewrite Nat.add_0_r.
    destruct (Nat.leb_spec first k), (Nat.ltb_spec k first);
      try reflexivity; lia.
  - cbn [map length seq] in H. injection H as Hc H.
    rewrite Hc, (IH _ H k).
    destruct (Nat.eqb_spec first k) as [-> | Hne].
    + rewrite Nat.leb_refl, Nat.sub_diag.
      destruct (Nat.ltb_spec k (k + S (length db))); [reflexivity | lia].
    + destruct (Nat.leb_spec first k), (Nat.leb_spec (S first) k),
        (Nat.ltb_spec k (S first + length db)),
        (Nat.ltb_spec k (first + S (length db)));
        cbn [andb]; try reflexivity; try lia.
      replace (k - first) with (S (k - S first)) by lia. reflexivity.
Qed.

(** X5. In the collection, after any sequence of uploads and resets, the
    lookup of an identifier from 1 to the size of the collection answers
    with the record at that position, whose identifier it is; the lookup
    of 0 or of a larger number finds nothing. *)
Theorem get_candidate_detail_by_position (reqs : list request) (k : nat) :
  let db := after secure_filename reqs in
  (1 <= k <= length db ->
   exists c,
     nth_error db (k - 1) = Some c
     /\ cand_id c = k
     /\ get_candidate_detail k db = Some (detail_of c))
  /\ (k = 0 \/ length db < k -> get_candidate_detail k db = None).
Proof.
  intros db.
  assert (H : map cand_id db = seq 1 (length db))
    by (apply handle_all_ids; reflexivity).
  unfold get_candidate_detail. rewrite (find_by_id db 1 H k). split.
  - intros [L U].
    destruct (Nat.leb_spec 1 k); [|lia].
    destruct (Nat.ltb_spec k (1 + length db)); [|lia]. cbn [andb].
    destruct (nth_error db (k - 1)) as [c|] eqn:E.
    + exists c. repeat split.
      apply (f_equal (fun l => nth_error l (k - 1))) in H.
      rewrite nth_error_map, E in H. cbn in H.
      rewrite nth_error_seq in H.
      destruct (Nat.ltb_spec (k - 1) (length db)); [|lia].
      injection H as ->. lia.
    + apply nth_error_None in E. lia.
  - intros [-> | U].
    + reflexivity.
    + destruct (Nat.leb_spec 1 k); [|reflexivity].
      destruct (Nat.ltb_spec k (1 + length db)); [lia | reflexivity].
Qed.

End UploadStructure.

Lemma get_candidate_detail_by_position_witness :
  exists c,
    nth_error (after keep_safe_characters
                     [Upload (Some [plain_pdf_file; old_word_file;
                                    plain_pdf_file])])
              1
    = Some c
    /\ cand_id c = 2.
Proof.
  destruct (get_candidate_detail_by_position keep_safe_characters
              [Upload (Some [plain_pdf_file; old_word_file; plain_pdf_file])] 2)
    as [H _].
  destruct H as (c & E & Hid & _).
  - vm_compute. lia.
  - exists c. split; [exact E | exact Hid].
Defined.


(** An upload in which the second file states the experience with 4301
    digits: the record of the first file stays, the third file is not
    read. *)
Example upload_resumes_stops_at_error :
  exists c,
    upload_resumes keep_safe_characters
                   (Some [plain_pdf_file; endless_pdf_file; plain_pdf_file]) []
    = ([c], Internal_server_error)
    /\ cand_id c = 1.
Proof.
  exists {| cand_id := 1;
            cand_filename := lit "resume.pdf";
            cand_text := lit "10 years of experience in Python";
            cand_skills := [lit "Python"];
            cand_experience := 10;
            cand_education := Unknown;
            cand_email := None;
            cand_phone := None |}.
  split; [vm_compute; reflexivity | reflexivity].
Qed.

(** ** Regular expressions: inversion *)

Lemma matches_wordb_inv (icase : bool) (c c' : cfg) :
  matches icase WordB c c' -> c' = c.
Proof. inversion 1; reflexivity. Qed.

Lemma matches_eps_inv (icase : bool) (c c' : cfg) :
  matches icase Eps c c' -> c' = c.
Proof. inversion 1; reflexivity. Qed.

Lemma matches_lit_inv (icase : bool) (ch : ascii) (prev : option ascii)
      (s : text) (caps : captures) (c' : cfg) :
  matches icase (Lit ch) (prev, s, caps) c' ->
  exists x s1, s = x :: s1 /\ chr_eq icase ch x = true
               /\ c' = (Some x, s1, caps).
Proof. inversion 1; subst; eauto. Qed.

Lemma matches_class_inv (icase : bool) (p : ascii -> bool)
      (prev : option ascii) (s : text) (caps : captures) (c' : cfg) :
  matches icase (Class p) (prev, s, caps) c' ->
  exists x s1, s = x :: s1 /\ p x = true /\ c' = (Some x, s1, caps).
Proof. inversion 1; subst; eauto. Qed.

Lemma matches_opt_inv (icase : bool) (r : regex) (c c' : cfg) :
  matches icase (Opt r) c c' -> matches icase r c c' \/ c' = c.
Proof. inversion 1; subst; auto. Qed.

Lemma chr_eq_exact (ch x : ascii) : chr_eq false ch x = true -> x = ch.
Proof. unfold chr_eq. intros H. apply Ascii.eqb_eq in H. now subst. Qed.

(** ** Field extraction: experience is not negative *)

Lemma fold_digits_nonneg (w : text) :
  forall acc,
    (0 <= acc)%Z -> forallb is_digit w = true ->
    (0 <= fold_left (fun a c => 10 * a + digit_value c) w acc)%Z.
Proof.
  induction w as [|c w IH]; intros acc Hacc H; cbn [fold_left forallb] in *.
  - exact Hacc.
  - apply andb_true_iff in H. destruct H as [Hc Hw].
    apply IH; [|exact Hw].
    unfold is_digit, between in Hc. apply andb_true_iff in Hc.
    destruct Hc as [Hlo _]. apply N.leb_le in Hlo.
    unfold digit_value. lia.
Qed.

Lemma int_of_digits_nonneg (w : text) (n : Z) :
  forallb is_digit w = true -> int_of_digits w = Some n -> (0 <= n)%Z.
Proof.
  intros Hw. unfold int_of_digits.
  destruct (int_max_str_digits <? length w); [discriminate|].
  intros H. injection H as <-. apply fold_digits_nonneg; [lia | exact Hw].
Qed.

(** X6. The years of experience read from a text are never negative. *)
Theorem extract_experience_nonneg (t : text) (n : Z) :
  extract_experience t = Some n -> (0 <= n)%Z.
Proof.
  unfold extract_experience, experience_patterns. cbn [first_captured].
  destruct (re_search true experience_pattern_1 t) as [m|] eqn:E1.
  - destruct (re_search_some _ _ _ E1) as [pre [Hf _]].
    apply int_of_digits_nonneg.
    exact (proj2 (experience_pattern_1_group Hf)).
  - destruct (re_search true experience_pattern_2 t) as [m|] eqn:E2.
    + destruct (re_search_some _ _ _ E2) as [pre [Hf _]].
      apply int_of_digits_nonneg.
      exact (proj2 (experience_pattern_2_group Hf)).
    + intros H. injection H as <-. lia.
Qed.

Lemma extract_experience_nonneg_witness :
  (0 <= 12)%Z.
Proof.
  apply (extract_experience_nonneg (lit "Experience: 12 years") 12).
  vm_compute. reflexivity.
Defined.

(** ** Field extraction: the shape of an address and of a phone number *)

(** X7. An address that the extraction returns is a piece of the text of
    the form local part, [@], domain, dot, ending: the local part and the
    domain are not empty, the ending has two characters or more, and each
    part is made of the characters that the pattern allows for it. *)
Theorem extract_email_shape (t w : text) :
  extract_email t = Some w ->
  occurs w t
  /\ exists local_part domain ending,
      w = local_part ++ "@"%char :: domain ++ "."%char :: ending
      /\ forallb local_char local_part = true /\ 1 <= length local_part
      /\ forallb domain_char domain = true /\ 1 <= length domain
      /\ forallb tld_char ending = true /\ 2 <= length ending.
Proof.
  unfold extract_email.
  destruct (re_search false email_pattern t) as [m|] eqn:E; [|discriminate].
  intros H. injection H as <-.
  destruct (re_search_some _ _ _ E)
    as [pre [(s0 & prev' & s' & caps' & Ht & Hm & ->) _]].
  unfold email_pattern in Hm. cbn [cats] in Hm.
  apply matches_cat_inv in Hm. destruct Hm as [c1 [H1 Hm]].
  apply matches_wordb_inv in H1. subst c1.
  apply matches_cat_inv in Hm. destruct Hm as [[[p2 s2] caps2] [H2 Hm]].
  apply matches_rep_inv in H2. destruct H2 as (w1 & -> & Hw1 & L1 & ->).
  apply matches_cat_inv in Hm. destruct Hm as [c3 [H3 Hm]].
  apply matches_lit_inv in H3. destruct H3 as (x3 & s3 & -> & E3 & ->).
  apply chr_eq_exact in E3. subst x3.
  apply matches_cat_inv in Hm. destruct Hm as [[[p4 s4] caps4] [H4 Hm]].
  apply matches_rep_inv in H4. destruct H4 as (w3 & -> & Hw3 & L3 & ->).
  apply matches_cat_inv in Hm. destruct Hm as [c5 [H5 Hm]].
  apply matches_lit_inv in H5. destruct H5 as (x5 & s5 & -> & E5 & ->).
  apply chr_eq_exact in E5. subst x5.
  apply matches_cat_inv in Hm. destruct Hm as [[[p6 s6] caps6] [H6 Hm]].
  apply matches_rep_inv in H6. destruct H6 as (w5 & -> & Hw5 & L5 & ->).
  apply matches_cat_inv in Hm. destruct Hm as [c7 [H7 Hm]].
  apply matches_wordb_inv in H7. subst c7.
  apply matches_eps_inv in Hm. injection Hm as _ -> _.
  cbn [group whole].
  replace (w1 ++ "@"%char :: w3 ++ "."%char :: w5 ++ s6)
    with ((w1 ++ "@"%char :: w3 ++ "."%char :: w5) ++ s6) in *
    by (rewrite <- !app_assoc; cbn [app]; rewrite <- !app_assoc; reflexivity).
  rewrite consumed_app. split.
  - exists pre, s6. exact Ht.
  - exists w1, w3, w5. repeat split; assumption.
Qed.

(** X8. A phone number that the extraction returns is a piece of the text
    with ten characters or more: at most one [+] or [(], a digit from 1 to
    9, eight or more digits, blanks, dots, hyphens or brackets, and a digit
    at the end. *)
Theorem extract_phone_shape (t w : text) :
  extract_phone t = Some w ->
  occurs w t
  /\ 10 <= length w
  /\ exists lead first body last_,
      w = lead ++ first :: body ++ [last_]
      /\ (lead = [] \/ lead = ["+"%char] \/ lead = ["("%char])
      /\ between 49 57 first = true
      /\ forallb phone_char body = true /\ 8 <= length body
      /\ is_digit last_ = true.
Proof.
  unfold extract_phone.
  destruct (re_search false phone_pattern t) as [m|] eqn:E; [|discriminate].
  intros H. injection H as <-.
  destruct (re_search_some _ _ _ E)
    as [pre [(s0 & prev' & s' & caps' & Ht & Hm & ->) _]].
  unfold phone_pattern in Hm. cbn [cats] in Hm.
  apply matches_cat_inv in Hm. destruct Hm as [[[p1 s1] caps1] [H1 Hm]].
  assert (Hlead : exists lead,
             s0 = lead ++ s1 /\ caps1 = []
             /\ (lead = [] \/ lead = ["+"%char] \/ lead = ["("%char])).
  { apply matches_opt_inv in H1. destruct H1 as [H1 | H1].
    - apply matches_class_inv in H1. destruct H1 as (x & s1' & -> & Hx & H1).
      injection H1 as _ <- <-. exists [x]. repeat split.
      unfold one_of in Hx. cbn in Hx.
      destruct (Ascii.eqb_spec x "+"); [subst; auto|].
      destruct (Ascii.eqb_spec x "("); [subst; auto|]. discriminate.
    - injection H1 as _ <- <-. exists []. repeat split. now left. }
  destruct Hlead as (lead & -> & -> & Hlead).
  apply matches_cat_inv in Hm. destruct Hm as [c2 [H2 Hm]].
  apply matches_class_inv in H2. destruct H2 as (x2 & s2 & -> & Hx2 & ->).
  apply matches_cat_inv in Hm. destruct Hm as [[[p3 s3] caps3] [H3 Hm]].
  apply matches_rep_inv in H3. destruct H3 as (body & -> & Hbody & L3 & ->).
  apply matches_cat_inv in Hm. destruct Hm as [c4 [H4 Hm]].
  apply matches_class_inv in H4. destruct H4 as (x4 & s4 & -> & Hx4 & ->).
  apply matches_eps_inv in Hm. injection Hm as _ -> _.
  cbn [group whole].
  replace (lead ++ x2 :: body ++ x4 :: s4)
    with ((lead ++ x2 :: body ++ [x4]) ++ s4) in *
    by (rewrite <- !app_assoc; cbn [app]; rewrite <- !app_assoc; reflexivity).
  rewrite consumed_app. split; [|split].
  - exists pre, s4. exact Ht.
  - rewrite length_app. cbn [length]. rewrite length_app. cbn [length]. lia.
  - exists lead, x2, body, x4. repeat split; assumption.
Qed.

Lemma extract_email_shape_witness :
  occurs (lit "jane@x.com") sample_resume.
Proof.
  apply (extract_email_shape sample_resume (lit "jane@x.com")).
  vm_compute. reflexivity.
Defined.

Lemma extract_phone_shape_witness :
  10 <= length (lit "+1 (555) 123-4567").
Proof.
  apply (extract_phone_shape (lit "call +1 (555) 123-4567 now")
                             (lit "+1 (555) 123-4567")).
  vm_compute. reflexivity.
Defined.

(** ** Documents without text *)

Lemma blank_lower (t : text) : blank t -> lower t = t.
Proof.
  induction 1 as [|c t Hc _ IH]; [reflexivity|].
  cbn [lower map]. fold (lower t). rewrite IH. now subst c.
Qed.

Lemma contains_blank (p t : text) :
  first_visible p = true -> blank t -> contains p t = false.
Proof.
  destruct p as [|c p]; [discriminate|]. cbn [first_visible]. intros Hc.
  induction 1 as [|x t Hx _ IH]; [reflexivity|].
  cbn [contains startswith]. subst x.
  rewrite IH. now destruct (Ascii.eqb c newline).
Qed.

Lemma search_blank (icase : bool) (r : regex) :
  (forall s, match_here icase r None (newline :: s) = None) ->
  (forall s, match_here icase r (Some newline) (newline :: s) = None) ->
  match_here icase r None [] = None ->
  match_here icase r (Some newline) [] = None ->
  forall t, blank t -> re_search icase r t = None.
Proof.
  intros H1 H2 H3 H4 t Ht. unfold re_search.
  assert (H : forall prev, prev = None \/ prev = Some newline ->
                           search_from icase r prev t = None).
  { induction Ht as [|x t Hx _ IH]; intros prev Hprev; cbn [search_from].
    - destruct Hprev as [-> | ->]; [now rewrite H3 | now rewrite H4].
    - subst x. destruct Hprev as [-> | ->].
      + rewrite H1. apply IH. now right.
      + rewrite H2. apply IH. now right. }
  apply H. now left.
Qed.

Lemma blank_text_no_info (t : text) :
  blank t -> extract_resume_info t = Some no_info.
Proof.
  intros Ht.
  assert (Hskills : extract_skills t = []).
  { unfold extract_skills. rewrite collect_filter. cbn [app].
    rewrite (blank_lower t Ht).
    assert (H : forallb (fun k => first_visible (lower k)) skills_keywords = true)
      by (vm_compute; reflexivity).
    rewrite forallb_forall in H.
    induction skills_keywords as [|k ks IH]; [reflexivity|].
    cbn [filter]. rewrite contains_blank; [|apply H; now left|exact Ht].
    apply IH. intros k' Hk'. apply H. now right. }
  assert (Hexperience : extract_experience t = Some 0%Z).
  { unfold extract_experience, experience_patterns. cbn [first_captured].
    rewrite !search_blank; try exact Ht; try reflexivity;
      intros s; vm_compute; reflexivity. }
  assert (Heducation : extract_education t = Unknown).
  { unfold extract_education. rewrite (blank_lower t Ht).
    unfold education_keywords. cbn [first_keyword].
    rewrite !contains_blank; try exact Ht; reflexivity. }
  assert (Hemail : extract_email t = None).
  { unfold extract_email.
    rewrite search_blank; try exact Ht; try reflexivity;
      intros s; vm_compute; reflexivity. }
  assert (Hphone : extract_phone t = None).
  { unfold extract_phone.
    rewrite search_blank; try exact Ht; try reflexivity;
      intros s; vm_compute; reflexivity. }
  unfold extract_resume_info.
  now rewrite Hskills, Hexperience, Heducation, Hemail, Hphone.
Qed.

Lemma concat_empty (parts : list text) : Forall (eq []) parts -> concat parts = [].
Proof.
  induction 1 as [|p parts Hp _ IH]; [reflexivity|].
  cbn [concat]. subst p. exact IH.
Qed.

Lemma join_blank (parts : list text) :
  Forall (eq []) parts -> blank (join [newline] parts).
Proof.
  induction 1 as [|p parts Hp Hparts IH]; [constructor|].
  subst p. cbn [join]. destruct parts as [|q parts]; [constructor|].
  cbn [app]. constructor; [reflexivity | exact IH].
Qed.

(** X9. A file that its reader fails on, or in which the reader finds only
    empty pages or empty paragraphs, gives a text without any character but
    line breaks, and the extraction finds nothing in it: no skill, 0 years,
    the level Unknown, no address and no phone number. *)
Theorem unreadable_file_gives_no_info (file : upload_file) :
  (nothing_to_read (pdf_pages file) ->
   extract_text_from_pdf file = []
   /\ extract_resume_info (extract_text_from_pdf file) = Some no_info)
  /\ (nothing_to_read (docx_paragraphs file) ->
      blank (extract_text_from_docx file)
      /\ extract_resume_info (extract_text_from_docx file) = Some no_info).
Proof.
  split; intros H.
  - assert (E : extract_text_from_pdf file = []).
    { unfold extract_text_from_pdf.
      destruct (pdf_pages file) as [pages|]; [now apply concat_empty | reflexivity]. }
    split; [exact E|]. rewrite E. apply blank_text_no_info. constructor.
  - assert (B : blank (extract_text_from_docx file)).
    { unfold extract_text_from_docx.
      destruct (docx_paragraphs file) as [paragraphs|];
        [now apply join_blank | constructor]. }
    split; [exact B | now apply blank_text_no_info].
Qed.

Lemma unreadable_file_gives_no_info_witness :
  extract_text_from_docx empty_word_file = [newline; newline]
  /\ extract_resume_info (extract_text_from_docx empty_word_file)
     = Some no_info.
Proof.
  split; [reflexivity|].
  apply (unreadable_file_gives_no_info empty_word_file).
  cbn. repeat constructor.
Defined.

(** ** Similarity scoring: range, disjoint texts, symmetry *)

Section ScoreAlgebra.

Open Scope R_scope.

Lemma dot_map (A : Type) (f g : A -> R) (l : list A) :
  dot (map f l) (map g l) = total (fun w => f w * g w) l.
Proof.
  unfold dot, total. induction l as [|w l IH]; [reflexivity|].
  cbn [map combine fold_right fst snd]. now rewrite IH.
Qed.

Lemma dot_scale (c d : R) (x : list R) :
  forall y,
    dot (map (fun v => v * c) x) (map (fun v => v * d) y) = c * d * dot x y.
Proof.
  unfold dot. induction x as [|a x IH]; intros [|b y];
    cbn [map combine fold_right fst snd]; try lra.
  rewrite IH. lra.
Qed.

Lemma l2_normalize_factor (row : list R) :
  l2_normalize row = map (fun v => v * unit_factor (sum_squares row)) row.
Proof.
  unfold l2_normalize, unit_factor. rewrite dot_self.
  destruct (Req_dec_T (sqrt (sum_squares row)) 0) as [_ | _].
  - rewrite <- (map_id row) at 1. apply map_ext. intros v. lra.
  - apply map_ext. intros v. reflexivity.
Qed.

Lemma unit_factor_pos (q : R) : 0 < unit_factor q.
Proof.
  unfold unit_factor. destruct (Req_dec_T (sqrt q) 0) as [_ | H]; [lra|].
  apply Rinv_0_lt_compat. pose proof (sqrt_pos q). lra.
Qed.

Lemma sum_squares_map_scale (c : R) (row : list R) :
  sum_squares (map (fun v => v * c) row) = c * c * sum_squares row.
Proof.
  unfold sum_squares. induction row as [|v row IH]; cbn [map fold_right]; [lra|].
  rewrite IH. lra.
Qed.

Lemma cosine_factor_pos (q q' : R) : 0 < cosine_factor q q'.
Proof.
  unfold cosine_factor.
  repeat apply Rmult_lt_0_compat; apply unit_factor_pos.
Qed.

Lemma cosine_of_normalized (x y : list R) :
  cosine_similarity (l2_normalize x) (l2_normalize y)
  = cosine_factor (sum_squares x) (sum_squares y) * dot x y.
Proof.
  unfold cosine_similarity, cosine_factor.
  rewrite (l2_normalize_factor (l2_normalize x)),
          (l2_normalize_factor (l2_normalize y)).
  rewrite (l2_normalize_factor x), (l2_normalize_factor y).
  rewrite !sum_squares_map_scale, !dot_scale. lra.
Qed.

Lemma sum_squares_normalized (row : list R) : sum_squares (l2_normalize row) <= 1.
Proof.
  destruct (Rle_lt_or_eq_dec 0 (sum_squares row) (sum_squares_nonneg row))
    as [Hpos | Hzero].
  - rewrite (l2_normalize_unit _ Hpos). lra.
  - unfold l2_normalize. rewrite dot_self, <- Hzero, sqrt_0.
    destruct (Req_dec_T 0 0) as [_ | H]; [|congruence].
    rewrite <- Hzero. lra.
Qed.

Lemma dot_le_squares (x : list R) :
  forall y, 2 * dot x y <= sum_squares x + sum_squares y.
Proof.
  unfold dot, sum_squares. induction x as [|a x IH]; intros [|b y];
    cbn [map combine fold_right fst snd].
  - lra.
  - pose proof (sum_squares_nonneg (b :: y)) as H. unfold sum_squares in H.
    cbn [map fold_right] in H. lra.
  - pose proof (sum_squares_nonneg (a :: x)) as H. unfold sum_squares in H.
    cbn [map fold_right] in H. lra.
  - specialize (IH y). pose proof (Rle_0_sqr (a - b)) as H. unfold Rsqr in H.
    lra.
Qed.

Lemma cosine_le_1 (x y : list R) : cosine_similarity x y <= 1.
Proof.
  unfold cosine_similarity.
  pose proof (dot_le_squares (l2_normalize x) (l2_normalize y)).
  pose proof (sum_squares_normalized x). pose proof (sum_squares_normalized y).
  lra.
Qed.

Lemma total_nonneg (A : Type) (f : A -> R) (l : list A) :
  (forall w, 0 <= f w) -> 0 <= total f l.
Proof.
  intros H. unfold total. induction l as [|w l IH]; cbn [map fold_right]; [lra|].
  specialize (H w). lra.
Qed.

Lemma total_zero (A : Type) (f : A -> R) (l : list A) :
  (forall w, In w l -> f w = 0) -> total f l = 0.
Proof.
  unfold total. induction l as [|w l IH]; intros H; cbn [map fold_right]; [lra|].
  rewrite (H w) by now left. rewrite IH; [lra|].
  intros w' Hw'. apply H. now right.
Qed.

Lemma total_permutation (A : Type) (f : A -> R) (l l' : list A) :
  Permutation l l' -> total f l = total f l'.
Proof.
  unfold total. induction 1; cbn [map fold_right]; lra.
Qed.

Lemma sum_squares_map (A : Type) (f : A -> R) (l : list A) :
  sum_squares (map f l) = total (fun w => f w * f w) l.
Proof. unfold sum_squares, total. now rewrite map_map. Qed.

(** Rounding keeps a number of the interval from 0 to 100 in it. *)
Lemma rint_bounds (n : Z) (y : R) :
  0 <= y <= IZR n -> (0 <= rint y <= n)%Z.
Proof.
  intros [Hlo Hhi]. unfold rint, frac_part.
  destruct (base_Int_part y) as [Hf1 Hf2].
  assert (H0 : (0 <= Int_part y)%Z).
  { apply le_IZR. apply Rnot_lt_le. intros Hneg.
    assert (IZR (Int_part y) <= -1).
    { change (-1) with (IZR (-1)). apply IZR_le.
      apply lt_IZR in Hneg. lia. }
    lra. }
  assert (Hn : (Int_part y <= n)%Z) by (apply le_IZR; lra).
  assert (Hstep : y - IZR (Int_part y) <> 0 -> (Int_part y + 1 <= n)%Z).
  { intros Hne.
    assert (Hlt : (Int_part y < n)%Z) by (apply lt_IZR; lra). lia. }
  destruct (Rlt_dec (y - IZR (Int_part y)) (1 / 2)) as [_ | H1]; [lia|].
  assert (Hne : y - IZR (Int_part y) <> 0) by lra.
  specialize (Hstep Hne).
  destruct (Rlt_dec (1 / 2) (y - IZR (Int_part y))); [lia|].
  destruct (Z.even (Int_part y)); lia.
Qed.

Lemma round2_bounds (x : R) : 0 <= x <= 100 -> 0 <= round2 x <= 100.
Proof.
  intros [Hlo Hhi]. unfold round2.
  destruct (rint_bounds 10000 (x * 100)) as [H0 H1]; [lra|].
  apply IZR_le in H0, H1. lra.
Qed.

Lemma round2_0 : round2 (0 * 100) = 0.
Proof.
  unfold round2. replace (0 * 100 * 100) with (IZR 0) by lra.
  rewrite rint_IZR. lra.
Qed.

Variable stop_words : list text.

Lemma document_frequency_le (a b w : text) :
  (document_frequency stop_words [a; b] w <= 2)%nat.
Proof.
  unfold document_frequency. cbn [filter].
  destruct (existsb (text_eqb w) (analyze stop_words a)),
    (existsb (text_eqb w) (analyze stop_words b)); cbn [length]; lia.
Qed.

Lemma document_frequency_swap (a b w : text) :
  document_frequency stop_words [a; b] w
  = document_frequency stop_words [b; a] w.
Proof.
  unfold document_frequency. cbn [filter].
  destruct (existsb (text_eqb w) (analyze stop_words a)),
    (existsb (text_eqb w) (analyze stop_words b)); reflexivity.
Qed.

Lemma idf_pos (a b w : text) : 0 < idf stop_words [a; b] w.
Proof.
  unfold idf. cbn [length].
  pose proof (document_frequency_le a b w) as Hdf.
  assert (Hd : 0 <= INR (document_frequency stop_words [a; b] w) <= 2).
  { split; [apply pos_INR|]. change 2 with (INR 2). now apply le_INR. }
  cbn [INR].
  set (d := INR (document_frequency stop_words [a; b] w)) in *.
  assert (H1 : 1 <= (1 + (1 + 1)) / (1 + d)).
  { apply Rmult_le_reg_r with (1 + d); [lra|].
    unfold Rdiv. rewrite Rmult_assoc, Rinv_l by lra. lra. }
  destruct (Rle_lt_or_eq_dec _ _ H1) as [Hlt | <-].
  - pose proof (ln_increasing 1 _ Rlt_0_1 Hlt) as H. rewrite ln_1 in H. lra.
  - rewrite ln_1. lra.
Qed.

Lemma weight_nonneg (a b d w : text) : 0 <= weight stop_words [a; b] d w.
Proof.
  unfold weight. apply Rmult_le_pos; [apply pos_INR|].
  pose proof (idf_pos a b w). lra.
Qed.

Lemma weight_swap (a b d w : text) : weight stop_words [a; b] d w = weight stop_words [b; a] d w.
Proof.
  unfold weight, idf. cbn [length]. now rewrite document_frequency_swap.
Qed.

(** The score of two texts with a term, before it is rounded. *)
Lemma calculate_match_score_value (a b : text) :
  vocabulary stop_words [a; b] <> [] ->
  calculate_match_score stop_words a b
  = round2
      (cosine_factor
         (total (fun w => weight stop_words [a; b] a w * weight stop_words [a; b] a w)
                (vocabulary stop_words [a; b]))
         (total (fun w => weight stop_words [a; b] b w * weight stop_words [a; b] b w)
                (vocabulary stop_words [a; b]))
       * total (fun w => weight stop_words [a; b] a w * weight stop_words [a; b] b w)
               (vocabulary stop_words [a; b])
       * 100).
Proof.
  intros Hne. unfold calculate_match_score, fit_transform.
  destruct (vocabulary stop_words [a; b]) as [|w0 vocab] eqn:Ev; [congruence|].
  cbn [map nth]. rewrite cosine_of_normalized.
  unfold tfidf_row. fold (weight stop_words [a; b] a). fold (weight stop_words [a; b] b).
  now rewrite !sum_squares_map, dot_map.
Qed.

End ScoreAlgebra.

Section ScoreFacts.

Open Scope R_scope.

Variable stop_words : list text.

Lemma calculate_match_score_empty (a b : text) :
  vocabulary stop_words [a; b] = [] ->
  calculate_match_score stop_words a b = 0.
Proof.
  intros H. unfold calculate_match_score, fit_transform. now rewrite H.
Qed.

Lemma calculate_match_score_rows (a b : text) :
  vocabulary stop_words [a; b] <> [] ->
  calculate_match_score stop_words a b
  = round2
      (cosine_similarity
         (l2_normalize (tfidf_row stop_words [a; b]
                                  (vocabulary stop_words [a; b]) a))
         (l2_normalize (tfidf_row stop_words [a; b]
                                  (vocabulary stop_words [a; b]) b))
       * 100).
Proof.
  intros Hne. unfold calculate_match_score, fit_transform.
  destruct (vocabulary stop_words [a; b]) as [|w0 vocab] eqn:Ev; [congruence|].
  reflexivity.
Qed.

Lemma vocabulary_swap (a b : text) :
  Permutation (vocabulary stop_words [a; b]) (vocabulary stop_words [b; a]).
Proof.
  rewrite !vocabulary_pair.
  apply NoDup_Permutation; try apply NoDup_nodup.
  intros w. rewrite !nodup_In, !in_app_iff. tauto.
Qed.

Lemma total_ext (A : Type) (f g : A -> R) (l : list A) :
  (forall w, f w = g w) -> total f l = total g l.
Proof.
  intros H. unfold total. f_equal. apply map_ext, H.
Qed.

Lemma cosine_factor_comm (q q' : R) : cosine_factor q q' = cosine_factor q' q.
Proof. unfold cosine_factor. ring. Qed.

Lemma calculate_match_score_bounds (a b : text) :
  0 <= calculate_match_score stop_words a b <= 100.
Proof.
  destruct (vocabulary stop_words [a; b]) as [|w0 vocab] eqn:Ev.
  - rewrite (calculate_match_score_empty a b Ev). lra.
  - assert (Hne : vocabulary stop_words [a; b] <> []) by (rewrite Ev; discriminate).
    rewrite (calculate_match_score_rows a b Hne).
    apply round2_bounds.
    pose proof (cosine_le_1
                  (l2_normalize (tfidf_row stop_words [a; b]
                                           (vocabulary stop_words [a; b]) a))
                  (l2_normalize (tfidf_row stop_words [a; b]
                                           (vocabulary stop_words [a; b]) b)))
      as Hup.
    assert (Hlo : 0 <= cosine_similarity
                         (l2_normalize (tfidf_row stop_words [a; b]
                                          (vocabulary stop_words [a; b]) a))
                         (l2_normalize (tfidf_row stop_words [a; b]
                                          (vocabulary stop_words [a; b]) b))).
    { rewrite cosine_of_normalized. apply Rmult_le_pos.
      - left. apply cosine_factor_pos.
      - unfold tfidf_row.
        rewrite (dot_map text
                   (fun w => INR (count_occ (list_eq_dec ascii_dec)
                                            (analyze stop_words a) w)
                             * idf stop_words [a; b] w)
                   (fun w => INR (count_occ (list_eq_dec ascii_dec)
                                            (analyze stop_words b) w)
                             * idf stop_words [a; b] w)).
        apply total_nonneg. intros w.
        apply Rmult_le_pos; apply (weight_nonneg stop_words a b). }
    lra.
Qed.

(** X10. The score of two texts, whatever they are, is a number from 0 to
    100. *)
Theorem calculate_match_score_range (a b : text) :
  0 <= calculate_match_score stop_words a b <= 100.
Proof. apply calculate_match_score_bounds. Qed.

Lemma score_without_common_term (a b : text) :
  (forall w, In w (analyze stop_words a) -> ~ In w (analyze stop_words b)) ->
  calculate_match_score stop_words a b = 0.
Proof.
  intros Hdis.
  destruct (vocabulary stop_words [a; b]) as [|w0 vocab] eqn:Ev.
  - exact (calculate_match_score_empty a b Ev).
  - assert (Hne : vocabulary stop_words [a; b] <> []) by (rewrite Ev; discriminate).
    rewrite (calculate_match_score_value stop_words a b Hne).
    rewrite (total_zero text
               (fun w => weight stop_words [a; b] a w
                         * weight stop_words [a; b] b w)).
    + rewrite Rmult_0_r. apply round2_0.
    + intros w _. unfold weight.
      destruct (in_dec (list_eq_dec ascii_dec) w (analyze stop_words a))
        as [Hin | Hout].
      * rewrite (proj1 (count_occ_not_In (list_eq_dec ascii_dec)
                                         (analyze stop_words b) w)
                       (Hdis w Hin)).
        cbn [INR]. ring.
      * rewrite (proj1 (count_occ_not_In (list_eq_dec ascii_dec)
                                         (analyze stop_words a) w) Hout).
        cbn [INR]. ring.
Qed.

(** X11. Two texts without a common term score 0. *)
Theorem calculate_match_score_disjoint (a b : text) :
  (forall w, In w (analyze stop_words a) -> ~ In w (analyze stop_words b)) ->
  calculate_match_score stop_words a b = 0.
Proof. apply score_without_common_term. Qed.

(** X12. The score does not depend on the order of the two texts. *)
Theorem calculate_match_score_symmetric (a b : text) :
  calculate_match_score stop_words a b = calculate_match_score stop_words b a.
Proof.
  pose proof (vocabulary_swap a b) as Hperm.
  destruct (vocabulary stop_words [a; b]) as [|w0 vocab] eqn:Ev.
  - apply Permutation_nil in Hperm.
    now rewrite (calculate_match_score_empty a b Ev),
                (calculate_match_score_empty b a Hperm).
  - assert (Hab : vocabulary stop_words [a; b] <> []) by (rewrite Ev; discriminate).
    assert (Hba : vocabulary stop_words [b; a] <> []).
    { intros E. rewrite E in Hperm. apply Permutation_sym, Permutation_nil in Hperm.
      discriminate. }
    rewrite <- Ev in Hperm.
    rewrite (calculate_match_score_value stop_words a b Hab),
            (calculate_match_score_value stop_words b a Hba).
    f_equal. f_equal.
    rewrite cosine_factor_comm.
    rewrite <- !(total_permutation _ _ _ _ Hperm).
    f_equal; [f_equal|].
    + apply total_ext. intros w. now rewrite (weight_swap stop_words a b).
    + apply total_ext. intros w. now rewrite (weight_swap stop_words a b).
    + apply total_ext. intros w. rewrite !(weight_swap stop_words a b). ring.
Qed.

End ScoreFacts.

Lemma calculate_match_score_disjoint_witness :
  calculate_match_score [lit "the"] (lit "The Python developer")
                        (lit "Java architect")
  = 0%R.
Proof.
  apply calculate_match_score_disjoint.
  vm_compute. intros w H.
  repeat (destruct H as [<- | H]; [intros [E | [E | []]]; discriminate E|]).
  destruct H.
Defined.

(** ** Aggregation: counting dictionaries *)

Section Tally.

Variable K : Type.
Variable eqb : K -> K -> bool.
Hypothesis eqb_eq : forall a b, eqb a b = true <-> a = b.

Lemma eqb_false (a b : K) : eqb a b = false <-> a <> b.
Proof.
  rewrite <- eqb_eq. destruct (eqb a b); split; congruence.
Qed.

Lemma get_count_bump (k k' : K) (d : list (K * nat)) :
  get_count eqb k' (bump eqb k d)
  = get_count eqb k' d + (if eqb k' k then 1 else 0).
Proof.
  induction d as [|[k0 n] d IH]; cbn [bump get_count].
  - destruct (eqb k' k); reflexivity.
  - destruct (eqb k k0) eqn:E0; cbn [get_count].
    + apply eqb_eq in E0. subst k0.
      destruct (eqb k' k); lia.
    + destruct (eqb k' k0) eqn:E1.
      * apply eqb_eq in E1. subst k0.
        apply eqb_false in E0.
        assert (E : eqb k' k = false) by (apply eqb_false; congruence).
        rewrite E. lia.
      * exact IH.
Qed.

Lemma keys_bump (k : K) (d : list (K * nat)) :
  map fst (bump eqb k d)
  = if existsb (eqb k) (map fst d) then map fst d else map fst d ++ [k].
Proof.
  induction d as [|[k0 n] d IH]; cbn [bump map fst existsb app]; [reflexivity|].
  destruct (eqb k k0); cbn [map fst orb]; [reflexivity|].
  rewrite IH. destruct (existsb (eqb k) (map fst d)); reflexivity.
Qed.

Lemma counts_sum_bump (k : K) (d : list (K * nat)) :
  counts_sum (bump eqb k d) = counts_sum d + 1.
Proof.
  unfold counts_sum.
  induction d as [|[k0 n] d IH]; cbn [bump map snd fold_right]; [reflexivity|].
  destruct (eqb k k0); cbn [map snd fold_right]; lia.
Qed.

Lemma tally_snoc (keys : list K) (k : K) :
  tally eqb (keys ++ [k]) = bump eqb k (tally eqb keys).
Proof. unfold tally. now rewrite fold_left_app. Qed.

Lemma tally_count (keys : list K) (k : K) :
  get_count eqb k (tally eqb keys) = occurrences eqb k keys.
Proof.
  induction keys as [|k0 keys IH] using rev_ind; [reflexivity|].
  rewrite tally_snoc, get_count_bump, IH.
  unfold occurrences. rewrite filter_app, length_app. cbn [filter].
  assert (E : eqb k k0 = eqb k0 k).
  { destruct (eqb k0 k) eqn:E1.
    - apply eqb_eq in E1. subst. now apply eqb_eq.
    - apply eqb_false. apply eqb_false in E1. congruence. }
  rewrite E. destruct (eqb k0 k); reflexivity.
Qed.

Lemma tally_keys (keys : list K) :
  NoDup (map fst (tally eqb keys))
  /\ forall k, In k (map fst (tally eqb keys)) <-> In k keys.
Proof.
  induction keys as [|k0 keys [IHn IHi]] using rev_ind.
  - split; [constructor | intros k; reflexivity].
  - rewrite tally_snoc, keys_bump.
    destruct (existsb (eqb k0) (map fst (tally eqb keys))) eqn:E.
    + apply existsb_exists in E. destruct E as (k1 & Hin & E).
      apply eqb_eq in E. subst k1.
      split; [exact IHn|]. intros k. rewrite in_app_iff, IHi. cbn [In].
      split; [tauto|]. intros [H | [<- | []]]; [exact H | now apply IHi].
    + assert (Hout : ~ In k0 (map fst (tally eqb keys))).
      { intros Hin. assert (existsb (eqb k0) (map fst (tally eqb keys)) = true).
        { apply existsb_exists. exists k0. split; [exact Hin | now apply eqb_eq]. }
        congruence. }
      split.
      * apply NoDup_app; [exact IHn | repeat constructor; intros [] |].
        intros k Hin [<- | []]. contradiction.
      * intros k. rewrite !in_app_iff, IHi. reflexivity.
Qed.

Lemma tally_sum (keys : list K) : counts_sum (tally eqb keys) = length keys.
Proof.
  induction keys as [|k0 keys IH] using rev_ind; [reflexivity|].
  rewrite tally_snoc, counts_sum_bump, IH, length_app. reflexivity.
Qed.

Lemma get_count_entry (d : list (K * nat)) (k : K) (n : nat) :
  NoDup (map fst d) ->
  (In (k, n) d <-> In k (map fst d) /\ get_count eqb k d = n).
Proof.
  induction d as [|[k0 n0] d IH]; cbn [map fst In get_count]; intros Hnd.
  - tauto.
  - inversion Hnd as [|? ? Hout Hnd']; subst.
    destruct (eqb k k0) eqn:E.
    + apply eqb_eq in E. subst k0. split.
      * intros [H | H]; [injection H as <-; auto|].
        exfalso. apply Hout. now apply (in_map fst) in H.
      * intros [_ <-]. now left.
    + apply eqb_false in E. rewrite (IH Hnd'). split.
      * intros [H | H]; [injection H as -> _; congruence | tauto].
      * intros [[H | H] Hn]; [congruence | tauto].
Qed.

(** The entries of the dictionary: the keys of the list, each with the
    number of times that it comes. *)
Lemma tally_entries (keys : list K) (k : K) (n : nat) :
  In (k, n) (tally eqb keys) <-> 0 < n /\ n = occurrences eqb k keys.
Proof.
  destruct (tally_keys keys) as [Hnd Hin].
  rewrite (get_count_entry _ k n Hnd), Hin, tally_count.
  unfold occurrences. split.
  - intros [Hk <-]. split; [|reflexivity].
    assert (Hf : In k (filter (fun x => eqb x k) keys)).
    { apply filter_In. split; [exact Hk | now apply eqb_eq]. }
    destruct (filter (fun x => eqb x k) keys); [destruct Hf | cbn; lia].
  - intros [Hpos ->]. split; [|reflexivity].
    destruct (filter (fun x => eqb x k) keys) as [|x l] eqn:E;
      [cbn in Hpos; lia|].
    assert (Hx : In x (filter (fun x => eqb x k) keys)) by (rewrite E; now left).
    apply filter_In in Hx. destruct Hx as [Hx Hxk].
    apply eqb_eq in Hxk. now subst.
Qed.

End Tally.

Lemma level_eqb_eq (a b : level) : level_eqb a b = true <-> a = b.
Proof. destruct a, b; cbn; split; congruence. Qed.

Lemma fold_left_map_keys (A K : Type) (eqb : K -> K -> bool) (f : A -> K)
      (l : list A) :
  forall d,
    fold_left (fun d c => bump eqb (f c) d) l d
    = fold_left (fun d k => bump eqb k d) (map f l) d.
Proof.
  induction l as [|c l IH]; intros d; cbn [fold_left map]; [reflexivity|].
  apply IH.
Qed.

Lemma fold_left_concat_keys (A K : Type) (eqb : K -> K -> bool)
      (f : A -> list K) (l : list A) :
  forall d,
    fold_left (fun d c => fold_left (fun d' k => bump eqb k d') (f c) d) l d
    = fold_left (fun d k => bump eqb k d) (concat (map f l)) d.
Proof.
  induction l as [|c l IH]; intros d; cbn [fold_left map concat]; [reflexivity|].
  rewrite fold_left_app. apply IH.
Qed.

(** ** Aggregation: the order of the keys in the answer *)

Lemma text_ltb_asym (a : text) :
  forall b, text_ltb a b = true -> text_ltb b a = false.
Proof.
  induction a as [|x a IH]; intros [|y b]; cbn [text_ltb]; try reflexivity;
    try discriminate.
  destruct (N.ltb_spec (code x) (code y)), (N.ltb_spec (code y) (code x)),
    (N.eqb_spec (code x) (code y)), (N.eqb_spec (code y) (code x));
    try lia; try reflexivity; try discriminate.
  apply IH.
Qed.

Lemma text_ltb_not_between (a : text) :
  forall b c,
    text_ltb b a = false -> text_ltb c b = false -> text_ltb c a = false.
Proof.
  induction a as [|x a IH]; intros [|y b] [|z c]; cbn [text_ltb];
    try reflexivity; try discriminate.
  destruct (N.ltb_spec (code y) (code x)), (N.ltb_spec (code z) (code y)),
    (N.ltb_spec (code z) (code x)), (N.eqb_spec (code y) (code x)),
    (N.eqb_spec (code z) (code y)), (N.eqb_spec (code z) (code x));
    try lia; try reflexivity; try discriminate.
  apply IH.
Qed.

Section KeyOrder.

Variable K V : Type.
Variable name : K -> text.

Lemma insert_by_name_permutation (x : K * V) (l : list (K * V)) :
  Permutation
    (insert_desc (fun a b => text_ltb (name (fst b)) (name (fst a))) x l)
    (x :: l).
Proof.
  induction l as [|y l IH]; cbn [insert_desc]; [reflexivity|].
  destruct (text_ltb (name (fst y)) (name (fst x))); [|reflexivity].
  rewrite IH. apply perm_swap.
Qed.

Lemma sort_keys_permutation (d : list (K * V)) :
  Permutation (sort_keys name d) d.
Proof.
  unfold sort_keys.
  induction d as [|x d IH]; cbn [sort_desc fold_right]; [reflexivity|].
  fold (sort_desc (fun a b : K * V => text_ltb (name (fst b)) (name (fst a))) d).
  rewrite insert_by_name_permutation. now constructor.
Qed.

Lemma insert_by_name_sorted (x : K * V) (l : list (K * V)) :
  StronglySorted (fun p q => text_ltb (name (fst q)) (name (fst p)) = false) l ->
  StronglySorted
    (fun p q => text_ltb (name (fst q)) (name (fst p)) = false)
    (insert_desc (fun a b => text_ltb (name (fst b)) (name (fst a))) x l).
Proof.
  induction 1 as [|y l Hl IH Hy]; cbn [insert_desc].
  - repeat constructor.
  - destruct (text_ltb (name (fst y)) (name (fst x))) eqn:E.
    + constructor; [exact IH|].
      eapply Permutation_Forall.
      * symmetry. apply insert_by_name_permutation.
      * constructor; [now apply text_ltb_asym | exact Hy].
    + constructor; [now constructor|].
      constructor; [exact E|].
      eapply Forall_impl; [|exact Hy]. cbn beta. intros q Hq.
      exact (text_ltb_not_between _ _ _ E Hq).
Qed.

(** The entries come in the order of the names of their keys. *)
Lemma sort_keys_sorted (d : list (K * V)) :
  StronglySorted (fun p q => text_ltb (name (fst q)) (name (fst p)) = false)
                 (sort_keys name d).
Proof.
  unfold sort_keys.
  induction d as [|x d IH]; cbn [sort_desc fold_right]; [constructor|].
  now apply insert_by_name_sorted.
Qed.

End KeyOrder.

Lemma counts_sum_permutation (K : Type) (d d' : list (K * nat)) :
  Permutation d d' -> counts_sum d = counts_sum d'.
Proof.
  unfold counts_sum. induction 1; cbn [map fold_right]; lia.
Qed.

(** X13. The distribution of education levels lists each level of the
    collection once, with the number of records of that level, and no other
    level; the numbers add up to the number of records. *)
Theorem get_analytics_education_distribution (db : candidates_db) :
  db <> [] ->
  exists a,
    get_analytics db = Some a
    /\ NoDup (map fst (education_distribution a))
    /\ (forall lvl n,
           In (lvl, n) (education_distribution a)
           <-> 0 < n
               /\ n = length (filter (fun c => level_eqb (cand_education c) lvl)
                                     db))
    /\ counts_sum (education_distribution a) = total_candidates a.
Proof.
  intros Hne. destruct db as [|c0 db0]; [congruence|].
  unfold get_analytics. eexists. split; [reflexivity|].
  cbn [education_distribution total_candidates].
  rewrite fold_left_map_keys. fold (tally level_eqb (map cand_education (c0 :: db0))).
  pose proof (sort_keys_permutation level nat level_name
                (tally level_eqb (map cand_education (c0 :: db0)))) as Hperm.
  split; [|split].
  - eapply Permutation_NoDup.
    + apply Permutation_map. symmetry. exact Hperm.
    + apply (tally_keys level level_eqb level_eqb_eq).
  - intros lvl n.
    assert (Hin : In (lvl, n)
                     (sort_keys level_name
                        (tally level_eqb (map cand_education (c0 :: db0))))
                  <-> In (lvl, n)
                         (tally level_eqb (map cand_education (c0 :: db0)))).
    { split; apply Permutation_in; [exact Hperm | symmetry; exact Hperm]. }
    rewrite Hin, (tally_entries level level_eqb level_eqb_eq).
    unfold occurrences.
    assert (E : forall l : candidates_db,
               length (filter (fun x => level_eqb x lvl) (map cand_education l))
               = length (filter (fun c => level_eqb (cand_education c) lvl) l)).
    { induction l as [|c l IH]; [reflexivity|]. cbn [map filter].
      destruct (level_eqb (cand_education c) lvl); cbn [length]; now rewrite IH. }
    rewrite E. reflexivity.
  - rewrite (counts_sum_permutation level _ _ Hperm), tally_sum.
    apply length_map.
Qed.

Lemma get_analytics_education_distribution_witness :
  option_map education_distribution
             (get_analytics [ with_education 1 Master []; with_education 2 PhD [];
                              with_education 3 Master [] ])
  = Some [(Master, 2); (PhD, 1)].
Proof.
  destruct (get_analytics_education_distribution
              [ with_education 1 Master []; with_education 2 PhD [];
                with_education 3 Master [] ])
    as (a & Ha & _); [discriminate|].
  rewrite Ha. vm_compute in Ha. injection Ha as <-. reflexivity.
Defined.

(** ** Aggregation: the most frequent skills *)

Section CountSort.

Variable A : Type.
Variable key : A -> nat.

Lemma insert_by_count_permutation (x : A) (l : list A) :
  Permutation (insert_desc (fun a b => key a <? key b) x l) (x :: l).
Proof.
  induction l as [|y l IH]; cbn [insert_desc]; [reflexivity|].
  destruct (key x <? key y); [|reflexivity].
  rewrite IH. apply perm_swap.
Qed.

Lemma sort_by_count_permutation (l : list A) :
  Permutation (sort_desc (fun a b => key a <? key b) l) l.
Proof.
  induction l as [|x l IH]; cbn [sort_desc fold_right]; [reflexivity|].
  fold (sort_desc (fun a b => key a <? key b) l).
  rewrite insert_by_count_permutation. now constructor.
Qed.

Lemma insert_by_count_sorted (x : A) (l : list A) :
  StronglySorted (fun a b => key b <= key a) l ->
  StronglySorted (fun a b => key b <= key a)
                 (insert_desc (fun a b => key a <? key b) x l).
Proof.
  induction 1 as [|y l Hl IH Hy]; cbn [insert_desc].
  - repeat constructor.
  - destruct (Nat.ltb_spec (key x) (key y)) as [Hlt | Hge].
    + constructor; [exact IH|].
      eapply Permutation_Forall.
      * symmetry. apply insert_by_count_permutation.
      * constructor; [lia | exact Hy].
    + constructor; [now constructor|].
      constructor; [lia|].
      eapply Forall_impl; [|exact Hy]. cbn. intros a Ha. lia.
Qed.

Lemma sort_by_count_sorted (l : list A) :
  StronglySorted (fun a b => key b <= key a)
                 (sort_desc (fun a b => key a <? key b) l).
Proof.
  induction l as [|x l IH]; cbn [sort_desc fold_right]; [constructor|].
  now apply insert_by_count_sorted.
Qed.

Lemma sorted_app_inv (l1 l2 : list A) :
  StronglySorted (fun a b => key b <= key a) (l1 ++ l2) ->
  StronglySorted (fun a b => key b <= key a) l1
  /\ forall a b, In a l1 -> In b l2 -> key b <= key a.
Proof.
  induction l1 as [|x l1 IH]; cbn [app]; intros H.
  - split; [constructor | intros a b []].
  - inversion H as [|? ? Hs Hx]; subst. destruct (IH Hs) as [IHs IHc].
    apply Forall_app in Hx. destruct Hx as [Hx1 Hx2].
    split; [now constructor|].
    intros a b [<- | Ha] Hb; [|now apply IHc].
    rewrite Forall_forall in Hx2. now apply Hx2.
Qed.

End CountSort.

(** X14. The most frequent skills in the answer are at most ten, each
    listed once with the number of times that it comes in the skill lists
    of the records, and written in the order of their names, as the keys of
    an object are; a skill of a record that is not listed comes no more
    often than any listed one, and then ten are listed. *)
Theorem get_analytics_top_skills (db : candidates_db) :
  db <> [] ->
  exists a,
    get_analytics db = Some a
    /\ length (top_skills a) <= 10
    /\ NoDup (map fst (top_skills a))
    /\ StronglySorted (fun p q => text_ltb (fst q) (fst p) = false)
                      (top_skills a)
    /\ (forall skill n,
           In (skill, n) (top_skills a) ->
           0 < n /\ n = occurrences text_eqb skill (all_listed_skills db))
    /\ (forall skill,
           In skill (all_listed_skills db) ->
           In skill (map fst (top_skills a))
           \/ (length (top_skills a) = 10
               /\ forall s n, In (s, n) (top_skills a) ->
                              occurrences text_eqb skill (all_listed_skills db)
                              <= n)).
Proof.
  intros Hne. destruct db as [|c0 db0]; [congruence|].
  unfold get_analytics. eexists. split; [reflexivity|].
  cbn [top_skills]. rewrite fold_left_concat_keys.
  fold (all_listed_skills (c0 :: db0)).
  fold (tally text_eqb (all_listed_skills (c0 :: db0))).
  set (keys := all_listed_skills (c0 :: db0)).
  set (sorted := sort_desc (fun a b : text * nat => snd a <? snd b)
                           (tally text_eqb keys)).
  set (answer := sort_keys (fun skill : text => skill) (firstn 10 sorted)).
  assert (Hanswer : Permutation answer (firstn 10 sorted))
    by apply (sort_keys_permutation text nat (fun skill => skill)).
  assert (Hperm : Permutation sorted (tally text_eqb keys))
    by apply (sort_by_count_permutation (text * nat) snd).
  assert (Hsorted : StronglySorted (fun p q : text * nat => snd q <= snd p) sorted)
    by apply (sort_by_count_sorted (text * nat) snd).
  assert (Hsplit : sorted = firstn 10 sorted ++ skipn 10 sorted)
    by (symmetry; apply firstn_skipn).
  assert (Hnd : NoDup (map fst sorted)).
  { eapply Permutation_NoDup.
    - apply Permutation_map. symmetry. exact Hperm.
    - apply (tally_keys text text_eqb text_eqb_eq). }
  assert (Hentry : forall skill n,
             In (skill, n) sorted
             <-> 0 < n /\ n = occurrences text_eqb skill keys).
  { intros skill n. rewrite <- (tally_entries text text_eqb text_eqb_eq).
    split; apply Permutation_in; [exact Hperm | symmetry; exact Hperm]. }
  assert (Hlisted : forall e, In e answer <-> In e (firstn 10 sorted)).
  { intros e. split; apply Permutation_in;
      [exact Hanswer | symmetry; exact Hanswer]. }
  assert (Hlen : length answer = length (firstn 10 sorted))
    by apply (Permutation_length Hanswer).
  rewrite Hsplit in Hsorted.
  destruct (sorted_app_inv (text * nat) snd _ _ Hsorted) as [_ Hcross].
  split; [rewrite Hlen; apply firstn_le_length|].
  split; [|split; [|split]].
  - eapply Permutation_NoDup.
    + apply Permutation_map. symmetry. exact Hanswer.
    + rewrite Hsplit, map_app in Hnd. now apply NoDup_app_remove_r in Hnd.
  - apply (sort_keys_sorted text nat (fun skill => skill)).
  - intros skill n Hin. apply Hentry. rewrite Hsplit. apply in_or_app.
    left. now apply Hlisted.
  - intros skill Hskill.
    assert (Hpos : 0 < occurrences text_eqb skill keys).
    { unfold occurrences.
      assert (Hf : In skill (filter (fun x => text_eqb x skill) keys)).
      { apply filter_In. split; [exact Hskill | apply text_eqb_refl]. }
      destruct (filter (fun x => text_eqb x skill) keys); [destruct Hf | cbn; lia]. }
    assert (Hin : In (skill, occurrences text_eqb skill keys) sorted)
      by (apply Hentry; now split).
    rewrite Hsplit in Hin. apply in_app_or in Hin. destruct Hin as [Hin | Hin].
    + left. apply Hlisted in Hin. now apply (in_map fst) in Hin.
    + right. split.
      * assert (Hlong : 10 < length sorted).
        { destruct (Nat.le_gt_cases (length sorted) 10) as [Hle | Hgt];
            [|exact Hgt].
          rewrite skipn_all2 in Hin by exact Hle. destruct Hin. }
        rewrite Hlen, length_firstn. lia.
      * intros s n Hs. apply Hlisted in Hs. exact (Hcross _ _ Hs Hin).
Qed.

Lemma get_analytics_top_skills_witness :
  option_map top_skills
             (get_analytics [ with_education 1 Master ["SQL"; "Python"]%string;
                              with_education 2 PhD ["Python"]%string;
                              with_education 3 Master
                                             ["Git"; "Python"; "SQL"]%string ])
  = Some [(lit "Git", 1); (lit "Python", 3); (lit "SQL", 2)].
Proof.
  destruct (get_analytics_top_skills
              [ with_education 1 Master ["SQL"; "Python"]%string;
                with_education 2 PhD ["Python"]%string;
                with_education 3 Master ["Git"; "Python"; "SQL"]%string ])
    as (a & Ha & _); [discriminate|].
  rewrite Ha. vm_compute in Ha. injection Ha as <-. reflexivity.
Defined.

(** ** Ranking: a record with the text of the description *)

Lemma score_of_same_text (stop_words : list text) (t : text) :
  analyze stop_words t <> [] ->
  calculate_match_score stop_words t t = 100%R.
Proof.
  intros Hne.
  assert (Hv : vocabulary stop_words [t; t] <> []).
  { rewrite vocabulary_pair. intros E. apply nodup_nil in E.
    apply app_eq_nil in E. tauto. }
  rewrite (calculate_match_score_rows stop_words t t Hv).
  rewrite cosine_similarity_self.
  - apply round2_100.
  - rewrite (l2_normalize_unit _ (tfidf_row_self_pos stop_words t Hne)). lra.
Qed.

(** X15. When the text of a record is the description itself, and it has a
    term, the search puts a result with the score 100 first, and no result
    has a larger score. *)
Theorem exact_match_ranks_first (stop_words : list text) (query : text)
        (job_description : option text) (db : candidates_db) (c : candidate) :
  query <> [] ->
  In c db ->
  cand_text c = match job_description with
                | Some j => j
                | None => query
                end ->
  analyze stop_words (cand_text c) <> [] ->
  exists first rest,
    search_candidates stop_words query job_description db = Some (first :: rest)
    /\ match_score first = 100%R
    /\ forall r, In r rest -> (match_score r <= 100)%R.
Proof.
  intros Hq Hc Htext Hterm.
  destruct query as [|q query]; [congruence|].
  unfold search_candidates.
  set (description := match job_description with
                      | Some j => j
                      | None => q :: query
                      end) in *.
  set (scored := map (score_candidate stop_words description) db).
  set (results := sort_desc (fun a b => Rltb (match_score a) (match_score b))
                            scored).
  assert (Hperm : Permutation results scored)
    by apply (sort_desc_permutation match_score).
  assert (Hsorted : StronglySorted (not_below match_score) results)
    by apply (sort_desc_sorted match_score).
  assert (Hrange : forall r, In r results -> (match_score r <= 100)%R).
  { intros r Hr. apply (Permutation_in _ Hperm) in Hr.
    apply in_map_iff in Hr. destruct Hr as (c' & <- & _).
    apply calculate_match_score_bounds. }
  assert (Hbest : In (score_candidate stop_words description c) results).
  { apply (Permutation_in _ (Permutation_sym Hperm)). now apply in_map. }
  assert (Hscore : match_score (score_candidate stop_words description c) = 100%R).
  { cbn [score_candidate match_score]. rewrite <- Htext.
    now apply score_of_same_text. }
  destruct results as [|first rest]; [destruct Hbest|].
  exists first, rest. split; [reflexivity|]. split.
  - inversion Hsorted as [|? ? _ Hfirst]; subst.
    pose proof (Hrange first (or_introl eq_refl)) as Hup.
    destruct Hbest as [-> | Hin]; [exact Hscore|].
    rewrite Forall_forall in Hfirst. specialize (Hfirst _ Hin).
    unfold not_below in Hfirst. rewrite Hscore in Hfirst. lra.
  - intros r Hr. apply Hrange. now right.
Qed.

Lemma exact_match_ranks_first_witness :
  exists first rest,
    search_candidates [lit "the"] (lit "python") None
                      [with_text 1 "java"; with_text 2 "python"]
    = Some (first :: rest)
    /\ match_score first = 100%R.
Proof.
  destruct (exact_match_ranks_first [lit "the"] (lit "python") None
              [with_text 1 "java"; with_text 2 "python"]
              (with_text 2 "python"))
    as (first & rest & E & H & _).
  - discriminate.
  - right. now left.
  - reflexivity.
  - vm_compute. discriminate.
  - exists first, rest. split; [exact E | exact H].
Defined.

(** ** Ranking: an example with two scores *)

Lemma search_candidates_ranking_witness :
  search_candidates [lit "the"] [] None
                    [with_text 1 "java"; with_text 2 "python"]
  = None
  /\ exists first second,
      search_candidates [lit "the"] (lit "python") None
                        [with_text 1 "java"; with_text 2 "python"]
      = Some [first; second]
      /\ res_id first = 2 /\ match_score first = 100%R
      /\ res_id second = 1 /\ match_score second = 0%R.
Proof.
  split.
  - apply (search_candidates_ranking [lit "the"] [] None
             [with_text 1 "java"; with_text 2 "python"]).
    reflexivity.
  - destruct (search_candidates_ranking [lit "the"] (lit "python") None
                [with_text 1 "java"; with_text 2 "python"]) as [_ H].
    destruct H as (results & E & _ & Hperm & Hsorted & _); [discriminate|].
    cbn [map] in Hperm.
    assert (H1 : match_score (score_candidate [lit "the"] (lit "python")
                                              (with_text 1 "java")) = 0%R).
    { cbn [score_candidate match_score].
      apply score_without_common_term. vm_compute. intros w H.
      repeat (destruct H as [<- | H]; [intros [E' | []]; discriminate E'|]).
      destruct H. }
    assert (H2 : match_score (score_candidate [lit "the"] (lit "python")
                                              (with_text 2 "python")) = 100%R).
    { cbn [score_candidate match_score].
      apply score_of_same_text. vm_compute. discriminate. }
    assert (H3 : res_id (score_candidate [lit "the"] (lit "python")
                                         (with_text 1 "java")) = 1)
      by reflexivity.
    assert (H4 : res_id (score_candidate [lit "the"] (lit "python")
                                         (with_text 2 "python")) = 2)
      by reflexivity.
    set (s1 := score_candidate [lit "the"] (lit "python") (with_text 1 "java"))
      in *.
    set (s2 := score_candidate [lit "the"] (lit "python")
                               (with_text 2 "python")) in *.
    clearbody s1 s2.
    apply Permutation_sym, Permutation_length_2_inv in Hperm.
    destruct Hperm as [-> | ->].
    + exfalso. inversion Hsorted as [|? ? _ Hfirst]; subst.
      inversion Hfirst as [|? ? Hle _]; subst.
      rewrite H1, H2 in Hle. lra.
    + exists s2, s1. repeat split; assumption.
Defined.

(** ** Field extraction: a longer text loses no skill *)

Lemma occurs_trans (p t t' : text) : occurs p t -> occurs t t' -> occurs p t'.
Proof.
  intros (a & b & ->) (a' & b' & ->). exists (a' ++ a), (b ++ b').
  now rewrite <- !app_assoc.
Qed.

Lemma occurs_lower (t t' : text) : occurs t t' -> occurs (lower t) (lower t').
Proof.
  intros (a & b & ->). exists (lower a), (lower b).
  unfold lower. now rewrite !map_app.
Qed.

(** X16. Every skill found in a piece of a text is found in the whole text:
    text added before or behind takes no skill away. *)
Theorem extract_skills_monotone (t t' : text) :
  occurs t t' -> incl (extract_skills t) (extract_skills t').
Proof.
  intros H skill. unfold extract_skills. rewrite !collect_filter. cbn [app].
  rewrite !filter_In, !contains_spec. intros [Hin Hocc]. split; [exact Hin|].
  exact (occurs_trans _ _ _ Hocc (occurs_lower _ _ H)).
Qed.

Lemma extract_skills_monotone_witness :
  incl (extract_skills (lit "React"))
       (extract_skills (lit "Senior React and Python developer")).
Proof.
  apply extract_skills_monotone.
  exists (lit "Senior "), (lit " and Python developer"). reflexivity.
Defined.
